(** * fastapi_websocket_rpc: the RPC channel (rpc_channel.py)

    A shallow embedding of [RpcPromise] and [RpcChannel]: the pending-call
    table, the delivered-response map, the dispatch of incoming envelopes
    and the life cycle of an outgoing call.

    Coroutines are modelled as state transformers over the channel's mutable
    fields.  A coroutine either returns, raises, or is suspended at an
    [await] that cannot complete yet.  Where the interleaving at an [await]
    matters ([async_call]), the code before and after the suspension point
    is given as separate atomic segments. *)

From stdpp Require Import gmap strings list pretty.

Set Default Proof Using "Type".

(** ** Python values and types *)

(** The values that travel as arguments and results.  [NoResponse] is the
    sentinel class imported from rpc_methods; methods return the class
    object itself and the channel compares by identity. *)
Inductive pyval :=
  | PyNone
  | PyBool (b : bool)
  | PyInt (z : Z)
  | PyStr (s : string)
  | NoResponse.

(** Return annotations as [get_return_type] sees them: the classes [str],
    [int] and [bool], any other class by its name, and the annotations that
    are not classes and have no [__name__]: [None] (from [-> None]) and any
    other such object (a string annotation, a typing construct). *)
Inductive pytype :=
  | Tstr
  | Tint
  | Tbool
  | Tclass (name : string)
  | Tnone
  | Tnameless (repr : string).

#[global] Instance pyval_eq_dec : EqDecision pyval.
Proof. solve_decision. Defined.
#[global] Instance pytype_eq_dec : EqDecision pytype.
Proof. solve_decision. Defined.

(** The [__name__] of an annotation, when it has one. *)
Definition type_name (t : pytype) : option string :=
  match t with
  | Tstr => Some "str"
  | Tint => Some "int"
  | Tbool => Some "bool"
  | Tclass name => Some name
  | Tnone | Tnameless _ => None
  end.

(** [type(v) is str] *)
Definition type_is_str (v : pyval) : bool :=
  match v with PyStr _ => true | _ => false end.

(** [v is NoResponse] *)
Definition is_NoResponse (v : pyval) : bool :=
  match v with NoResponse => true | _ => false end.

(** ** Wire schemas (schemas.py) *)

(** Modelled from the spec: the declarations of [RpcRequest], [RpcResponse]
    and [RpcMessage] live in schemas.py, which is not part of the sources.
    The fields are the ones of the spec's data model and wire envelope; the
    response's [call_id] and the two fields of the envelope are optional
    because the channel tests them against [None]. *)
Record RpcRequest := mkRequest {
  rq_method : string;
  rq_arguments : gmap string pyval;
  rq_call_id : string
}.

Record RpcResponse := mkResponse {
  rs_call_id : option string;
  rs_result : pyval;
  rs_result_type : option string
}.

Record RpcMessage := mkMessage {
  msg_request : option RpcRequest;
  msg_response : option RpcResponse
}.

#[global] Instance RpcRequest_eq_dec : EqDecision RpcRequest.
Proof. solve_decision. Defined.
#[global] Instance RpcResponse_eq_dec : EqDecision RpcResponse.
Proof. solve_decision. Defined.
#[global] Instance RpcMessage_eq_dec : EqDecision RpcMessage.
Proof. solve_decision. Defined.

(** What the channel needs from pydantic and from Python's builtins.
    A [None] from [parse_raw] or [validate] stands for a raised
    [ValidationError]. *)
Class Pydantic := {
  (** [RpcMessage.parse_raw(data)] *)
  parse_raw : string → option RpcMessage;
  (** [message.json()] *)
  json : RpcMessage → string;
  (** the field validation run by [RpcResponse[result_type](result=...)] *)
  validate : pytype → pyval → option pyval;
  (** [str(value)] *)
  py_str : pyval → string
}.

(** ** RpcPromise *)

(** An [asyncio.Event] is a heap object: the promise kept in the pending
    table and the handle given to the caller refer to the same event. *)
Definition event_ref := nat.

Record RpcPromise := mkPromise {
  _request : RpcRequest;
  _id : string;
  _event : event_ref
}.

#[global] Instance RpcPromise_eq_dec : EqDecision RpcPromise.
Proof. solve_decision. Defined.

(** ** Channel state *)

Inductive log_arg :=
  | LRequest (r : RpcRequest)
  | LResponse (r : RpcResponse)
  | LMessage (m : RpcMessage)
  | LData (data : string).

Inductive log_record :=
  | Info (text : string) (arg : log_arg)
  | Error (text : string) (arg : log_arg).

(** The mutable part of an [RpcChannel]: [self.requests], [self.responses],
    the events the promises refer to, what was handed to [socket.send]
    (oldest first) and what was logged (oldest first). *)
Record ChanState := mkState {
  requests : gmap string RpcPromise;
  responses : gmap string RpcResponse;
  events : gmap event_ref bool;
  socket : list string;
  log : list log_record
}.

(** [RpcChannel.__init__]: both tables start empty. *)
Definition init : ChanState :=
  {| requests := ∅; responses := ∅; events := ∅; socket := []; log := [] |}.

Definition set_requests (f : gmap string RpcPromise → gmap string RpcPromise)
    (st : ChanState) : ChanState :=
  {| requests := f (requests st); responses := responses st;
     events := events st; socket := socket st; log := log st |}.

Definition set_responses (f : gmap string RpcResponse → gmap string RpcResponse)
    (st : ChanState) : ChanState :=
  {| requests := requests st; responses := f (responses st);
     events := events st; socket := socket st; log := log st |}.

Definition set_events (f : gmap event_ref bool → gmap event_ref bool)
    (st : ChanState) : ChanState :=
  {| requests := requests st; responses := responses st;
     events := f (events st); socket := socket st; log := log st |}.

Definition set_socket (f : list string → list string) (st : ChanState) : ChanState :=
  {| requests := requests st; responses := responses st;
     events := events st; socket := f (socket st); log := log st |}.

Definition set_log (f : list log_record → list log_record) (st : ChanState) : ChanState :=
  {| requests := requests st; responses := responses st;
     events := events st; socket := socket st; log := f (log st) |}.

(** ** Coroutines *)

Inductive exn :=
  | AttributeError (name : string)
  | KeyError (key : string)
  | ValidationError
  | TypeError (msg : string)
  | UnknownMethodException
  | Exception (msg : string).

#[global] Instance exn_eq_dec : EqDecision exn.
Proof. solve_decision. Defined.

(** The result of running a coroutine from a state: it returned, it raised
    (the state keeps what was done before the exception), or it is
    suspended at an [await] that cannot complete in this state. *)
Inductive outcome (A : Type) :=
  | Return (a : A) (st : ChanState)
  | Raise (e : exn) (st : ChanState)
  | Blocked (st : ChanState).
Arguments Return {A} a st.
Arguments Raise {A} e st.
Arguments Blocked {A} st.

Definition coro (A : Type) : Type := ChanState → outcome A.

Definition coro_ret {A} (a : A) : coro A := λ st, Return a st.

Definition coro_bind {A B} (k : A → coro B) (c : coro A) : coro B := λ st,
  match c st with
  | Return a st' => k a st'
  | Raise e st' => Raise e st'
  | Blocked st' => Blocked st'
  end.

#[global] Instance coro_mret : MRet coro := @coro_ret.
#[global] Instance coro_mbind : MBind coro := @coro_bind.

Definition raise {A} (e : exn) : coro A := λ st, Raise e st.

(** A statement that only updates the state. *)
Definition modify (f : ChanState → ChanState) : coro unit := λ st, Return tt (f st).

(** [try: body  except ValidationError: handler] *)
Definition try_except_ValidationError {A} (body handler : coro A) : coro A := λ st,
  match body st with
  | Raise ValidationError st' => handler st'
  | o => o
  end.

(** ** Collaborators *)

Definition add_log (r : log_record) : ChanState → ChanState :=
  set_log (λ l, l ++ [r]).

Definition add_sent (data : string) : ChanState → ChanState :=
  set_socket (λ out, out ++ [data]).

Definition logger_info (text : string) (arg : log_arg) : coro unit :=
  modify (add_log (Info text arg)).

Definition logger_error (text : string) (arg : log_arg) : coro unit :=
  modify (add_log (Error text arg)).

(** [RpcChannel.send]: hands the data to [socket.send]. *)
Definition send (data : string) : coro unit :=
  modify (add_sent data).

(** [asyncio.Event()]: a new event, not set. *)
Definition Event_new : coro event_ref := λ st,
  let l := fresh (dom (events st)) in
  Return l (set_events (insert l false) st).

(** [event.set()] *)
Definition Event_set (l : event_ref) : coro unit :=
  modify (set_events (insert l true)).

(** [await event.wait()]: goes on once the event is set. *)
Definition Event_wait (l : event_ref) : coro unit := λ st,
  match events st !! l with
  | Some true => Return tt st
  | _ => Blocked st
  end.

(** [RpcPromise.__init__] *)
Definition RpcPromise_new (request : RpcRequest) : coro RpcPromise :=
  ev ← Event_new;
  mret {| _request := request; _id := rq_call_id request; _event := ev |}.

(** [RpcPromise.call_id] *)
Definition call_id (p : RpcPromise) : string := _id p.

(** [RpcPromise.set] *)
Definition RpcPromise_set (p : RpcPromise) : coro unit := Event_set (_event p).

(** [RpcPromise.wait] *)
Definition RpcPromise_wait (p : RpcPromise) : coro unit := Event_wait (_event p).

(** An attribute of the methods object: a method with its return
    annotation, if it has one, or anything that is not callable.  [body] is
    what [await method(kwargs)] does: the run of a coroutine method, and
    for a method that is not a coroutine function its call followed by the
    [TypeError] of awaiting what it returned.  A method has the channel at
    hand ([set_channel]), so its body runs on the channel's state. *)
Inductive attribute :=
  | Method (return_annotation : option pytype)
           (body : gmap string pyval → coro pyval)
  | Data (v : pyval).

(** [callable(attr)] *)
Definition callable (a : attribute) : bool :=
  match a with Method _ _ => true | Data _ => false end.

(** [getattr(obj, name)] with no default *)
Definition getattr (obj : gmap string attribute) (name : string) : coro attribute :=
  match obj !! name with
  | Some a => mret a
  | None => raise (AttributeError name)
  end.

(** [RpcChannel.get_return_type]: the annotation, [str] when there is none. *)
Definition get_return_type (return_annotation : option pytype) : pytype :=
  default Tstr return_annotation.

(** Reading the state, [d[k]] and [del d[k]] on the two tables. *)
Definition gets {A} (f : ChanState → A) : coro A := λ st, Return (f st) st.

Definition subscript {V} (d : ChanState → gmap string V) (k : string) : coro V := λ st,
  match d st !! k with
  | Some v => Return v st
  | None => Raise (KeyError k) st
  end.

Definition del_requests (k : string) : coro unit := λ st,
  match requests st !! k with
  | Some _ => Return tt (set_requests (delete k) st)
  | None => Raise (KeyError k) st
  end.

Definition del_responses (k : string) : coro unit := λ st,
  match responses st !! k with
  | Some _ => Return tt (set_responses (delete k) st)
  | None => Raise (KeyError k) st
  end.

(** [RpcMessage(request=RpcRequest(method=name, arguments=args, call_id=uid))] *)
Definition new_request (name : string) (args : gmap string pyval) (uid : string)
    : RpcMessage :=
  {| msg_request := Some (mkRequest name args uid); msg_response := None |}.

(** ** RpcChannel *)

Section channel.
Context `{!Pydantic}.

(** [self.methods]: the attributes of the methods object, by name. *)
Variable methods : gmap string attribute.

(** [result_type.__name__]: [AttributeError] when the annotation has no
    such attribute. *)
Definition getattr_name (result_type : pytype) : coro string :=
  match type_name result_type with
  | Some name => mret name
  | None => raise (AttributeError "__name__")
  end.

(** The call [RpcResponse[result_type](call_id=cid, result=result,
    result_type=name)], its arguments already evaluated: pydantic validates
    [result] against [result_type]. *)
Definition RpcResponse_new (result_type : pytype) (cid : string)
    (result : pyval) (name : string) : coro RpcResponse :=
  match validate result_type result with
  | Some v => mret {| rs_call_id := Some cid; rs_result := v;
                      rs_result_type := Some name |}
  | None => raise ValidationError
  end.

(** [on_request] from [if result is not NoResponse:] on: the result of
    the invocation is typed, wrapped and sent, unless it is the sentinel.
    The arguments of the [RpcResponse] constructor, [result_type.__name__]
    among them, are evaluated before the constructor validates. *)
Definition reply (message : RpcRequest) (return_annotation : option pytype)
    (result : pyval) : coro unit :=
  if is_NoResponse result then mret tt else
    let result_type := get_return_type return_annotation in
    let result :=
      if bool_decide (result_type = Tstr) && negb (type_is_str result)
      then PyStr (py_str result) else result in
    name ← getattr_name result_type;
    response ← RpcResponse_new result_type (rq_call_id message) result name;
    send (json {| msg_request := None; msg_response := Some response |}).

(** [callable(method)] holds for [Method] and fails for [Data]; the first
    branch is the body of [if callable(method):], the second its missing
    [else]. *)
Definition on_request (message : RpcRequest) : coro unit :=
  logger_info "Handling RPC request" (LRequest message);;
  method ← getattr methods (rq_method message);
  match method with
  | Method return_annotation body =>
      result ← body (rq_arguments message);
      reply message return_annotation result
  | Data _ => mret tt
  end.

Definition on_response (response : RpcResponse) : coro unit :=
  logger_info "Handling RPC response" (LResponse response);;
  pending ← gets requests;
  match rs_call_id response with
  | Some cid =>
      if bool_decide (cid ∈ dom pending) then
        modify (set_responses (insert cid response));;
        promise ← subscript requests cid;
        RpcPromise_set promise
      else mret tt
  | None => mret tt
  end.

Definition on_message (data : string) : coro unit :=
  try_except_ValidationError
    (message ← (λ st, match parse_raw data with
                      | Some m => Return m st
                      | None => Raise ValidationError st
                      end);
     match msg_request message with
     | Some request => on_request request
     | None => mret tt
     end;;
     match msg_response message with
     | Some response => on_response response
     | None => mret tt
     end)
    (logger_error "Failed to parse message" (LData data)).

Definition wait_for_response (promise : RpcPromise) : coro RpcResponse :=
  RpcPromise_wait promise;;
  response ← subscript responses (call_id promise);
  del_requests (call_id promise);;
  del_responses (call_id promise);;
  mret response.

(** [async_call] up to and including [await self.send(msg.json())], where
    the coroutine can be suspended.  [uid] is what [gen_uid()] returned. *)
Definition async_call_send (name : string) (args : gmap string pyval)
    (uid : string) : coro RpcMessage :=
  let msg := new_request name args uid in
  logger_info "Calling RPC method" (LMessage msg);;
  send (json msg);;
  mret msg.

(** [async_call] after the send: the promise is created and stored under
    [msg.request.call_id]. *)
Definition async_call_register (request : RpcRequest) : coro RpcPromise :=
  promise ← RpcPromise_new request;
  modify (set_requests (insert (rq_call_id request) promise));;
  mret promise.

(** [async_call] when nothing else runs during the send. *)
Definition async_call (name : string) (args : gmap string pyval)
    (uid : string) : coro RpcPromise :=
  msg ← async_call_send name args uid;
  match msg_request msg with
  | Some request => async_call_register request
  | None => raise (AttributeError "call_id")
  end.

Definition call (name : string) (args : gmap string pyval)
    (uid : string) : coro RpcResponse :=
  promise ← async_call name args uid;
  wait_for_response promise.

End channel.

(** ** Scenarios

    Drivers used to state properties of several calls: issue a list of
    calls one after the other, feed a list of incoming responses to the
    dispatcher, await a list of handles. *)

Section scenarios.
Context `{!Pydantic}.

Fixpoint issue_all (calls : list (string * gmap string pyval * string))
    : coro (list RpcPromise) :=
  match calls with
  | [] => mret []
  | (name, args, uid) :: rest =>
      promise ← async_call name args uid;
      promises ← issue_all rest;
      mret (promise :: promises)
  end.

Fixpoint deliver_all (incoming : list RpcResponse) : coro unit :=
  match incoming with
  | [] => mret tt
  | response :: rest => on_response response;; deliver_all rest
  end.

Fixpoint await_all (handles : list RpcPromise) : coro (list RpcResponse) :=
  match handles with
  | [] => mret []
  | promise :: rest =>
      response ← wait_for_response promise;
      others ← await_all rest;
      mret (response :: others)
  end.

End scenarios.

(** The call ids of a list of calls, in order. *)
Definition uids (calls : list (string * gmap string pyval * string)) : list string :=
  snd <$> calls.

(** A handle whose response has been delivered and not yet consumed. *)
Definition ready (st : ChanState) (promise : RpcPromise) (response : RpcResponse) : Prop :=
  events st !! _event promise = Some true ∧
  responses st !! call_id promise = Some response ∧
  is_Some (requests st !! call_id promise).

(** Every delivered response is filed under its own call id. *)
Definition responses_keyed (st : ChanState) : Prop :=
  ∀ k r, responses st !! k = Some r → rs_call_id r = Some k.


(** ** A small endpoint

    A concrete methods object, codec and wire table, on which the
    properties below are exercised. *)

Module Demo.

Definition str (v : pyval) : string :=
  match v with
  | PyNone => "None"
  | PyBool true => "True"
  | PyBool false => "False"
  | PyInt z => pretty z
  | PyStr s => s
  | NoResponse => "NoResponse"
  end.

Definition to_json (m : RpcMessage) : string :=
  match msg_request m, msg_response m with
  | Some r, _ => "request " +:+ rq_method r +:+ " " +:+ rq_call_id r
  | None, Some r =>
      "response " +:+ default "null" (rs_call_id r) +:+ " " +:+ str (rs_result r)
  | None, None => "empty"
  end.

Definition check (t : pytype) (v : pyval) : option pyval :=
  match t, v with
  | Tstr, PyStr _ | Tint, PyInt _ | Tbool, PyBool _ => Some v
  | Tclass _, _ => Some v
  | _, _ => None
  end.

Definition add_args : gmap string pyval := {[ "a" := PyInt 1; "b" := PyInt 2 ]}.
Definition multiply_args : gmap string pyval := {[ "a" := PyInt 2; "b" := PyInt 3 ]}.

Definition multiply_request : RpcRequest := mkRequest "multiply" multiply_args "m1".
Definition notify_request : RpcRequest := mkRequest "notify" ∅ "n1".
Definition boom_request : RpcRequest := mkRequest "boom" ∅ "b1".

Definition ping_response : RpcResponse := mkResponse (Some "c1") (PyStr "ping") (Some "str").
Definition pong_response : RpcResponse := mkResponse (Some "c2") (PyStr "pong") (Some "str").
Definition stray_response : RpcResponse := mkResponse (Some "zz") (PyInt 0) (Some "int").

(** The inbound messages that decode; everything else is malformed. *)
Definition wire : list (string * RpcMessage) :=
  [ ("multiply", mkMessage (Some multiply_request) None);
    ("notify", mkMessage (Some notify_request) None);
    ("boom+ping", mkMessage (Some boom_request) (Some ping_response));
    ("notify+ping", mkMessage (Some notify_request) (Some ping_response)) ].

Definition parse (data : string) : option RpcMessage :=
  (list_to_map wire : gmap string RpcMessage) !! data.

#[export] Instance pydantic : Pydantic :=
  {| parse_raw := parse; json := to_json; validate := check; py_str := str |}.

Definition add (kwargs : gmap string pyval) : coro pyval :=
  match kwargs !! "a", kwargs !! "b" with
  | Some (PyInt a), Some (PyInt b) => mret (PyInt (a + b))
  | _, _ => raise (TypeError "add")
  end.

(** [add] and [notify] are the methods meant for the other side,
    [_secret] is a helper of the object, [version] a plain attribute. *)
Definition methods : gmap string attribute :=
  {[ "add" := Method (Some Tint) add;
     "notify" := Method None (λ _, mret NoResponse);
     "boom" := Method None (λ _, raise (Exception "boom"));
     "_secret" := Method None (λ _, mret (PyStr "internal"));
     "version" := Data (PyStr "1.0") ]}.


(** The state a coroutine leaves. *)
Definition after {A} (c : coro A) (st : ChanState) : ChanState :=
  match c st with
  | Return _ st' | Raise _ st' | Blocked st' => st'
  end.

(** A channel with one call, "c1", issued and still pending, its handle,
    and the same channel once the response to "c1" has come in. *)
Definition one_pending : ChanState := after (async_call "ping" ∅ "c1") init.

Definition ping_handle : RpcPromise :=
  {| _request := mkRequest "ping" ∅ "c1"; _id := "c1"; _event := 0 |}.

Definition one_delivered : ChanState := after (on_response ping_response) one_pending.

(** Two calls issued back to back, answered in reverse order. *)
Definition two_calls : list (string * gmap string pyval * string) :=
  [ ("ping", ∅, "c1"); ("pong", ∅, "c2") ].

End Demo.

(** ** The rest of the module *)

(** The state in which a coroutine stopped, however it stopped. *)
Definition final {A} (o : outcome A) : ChanState :=
  match o with
  | Return _ st | Raise _ st | Blocked st => st
  end.

(** The value [reply] passes on as [result]: [str(result)] when the
    return type is [str] and the result is not one already. *)
Definition stringified `{!Pydantic} (result_type : pytype) (result : pyval) : pyval :=
  if bool_decide (result_type = Tstr) && negb (type_is_str result)
  then PyStr (py_str result) else result.

(** [RpcProxy]: a method name bound to the channel. *)
Record RpcProxy := mkProxy {
  method_name : string
}.

(** [RpcProxy.__call__]: [self.channel.call(self.method_name, args=kwds)];
    [uid] is what [gen_uid()] returns inside [async_call]. *)
Definition RpcProxy_call `{!Pydantic} (proxy : RpcProxy)
    (kwds : gmap string pyval) (uid : string) : coro RpcResponse :=
  call (method_name proxy) kwds uid.

(** [RpcCaller]: [_method_names] is [None] or the names of the members of
    [methods] that are methods.  Only membership in the list is used. *)
Record RpcCaller := mkCaller {
  _method_names : option (list string)
}.

(** [inspect.ismethod]: among the attributes of the model, the methods. *)
Definition ismethod (a : attribute) : bool :=
  match a with Method _ _ => true | Data _ => false end.

(** [RpcCaller.__init__]: the names of [getmembers(methods, ismethod)]. *)
Definition RpcCaller_new (methods : option (gmap string attribute)) : RpcCaller :=
  {| _method_names :=
       (λ obj, (map_to_list (filter (λ kv, ismethod kv.2 = true) obj)).*1) <$> methods |}.

(** What [RpcCaller.__getattribute__] answers: a proxy for the remote
    method, or the caller's own attribute of that name, looked up by
    [super().__getattribute__]. *)
Inductive caller_attribute :=
  | Forward (proxy : RpcProxy)
  | Own (name : string).

(** [name.startswith("_")] *)
Definition startswith_underscore (name : string) : bool := String.prefix "_" name.

Definition RpcCaller_getattribute (caller : RpcCaller) (name : string) : caller_attribute :=
  if negb (startswith_underscore name)
     && match _method_names caller with
        | None => true
        | Some names => bool_decide (name ∈ names)
        end
  then Forward (mkProxy name)
  else Own name.

(** The fields of an [RpcChannel] set at construction or by
    [register_disconnect_handler]; the handler is a coroutine function of
    the channel id. *)
Record ChanMeta := mkMeta {
  chan_id : string;
  other : RpcCaller;
  _on_disconnect : option (string → coro pyval);
  _context : gmap string pyval
}.

(** [RpcChannel.__init__]: [uid] is what [gen_uid()] would return, used
    only when no [channel_id] is given; [kwargs or {}] is [kwargs]. *)
Definition RpcChannel_new (channel_id : option string)
    (kwargs : gmap string pyval) (uid : string) : ChanMeta * ChanState :=
  ({| chan_id := default uid channel_id;
      other := RpcCaller_new None;
      _on_disconnect := None;
      _context := kwargs |},
   init).

(** [RpcChannel.context] *)
Definition context (self : ChanMeta) : gmap string pyval := _context self.

Definition register_disconnect_handler (handler : string → coro pyval)
    (self : ChanMeta) : ChanMeta :=
  {| chan_id := chan_id self; other := other self;
     _on_disconnect := Some handler; _context := _context self |}.

Definition on_disconnect (self : ChanMeta) : coro pyval :=
  match _on_disconnect self with
  | Some handler => handler (chan_id self)
  | None => mret PyNone
  end.

(** ** States a channel can be in

    The states reached from a new channel by issuing calls under call ids
    that are not pending ([gen_uid] does not repeat itself), dispatching
    incoming responses and awaiting handles, in any order and whatever the
    outcome of each step. *)
Inductive reachable `{!Pydantic} : ChanState → Prop :=
  | reach_init : reachable init
  | reach_call name args uid st :
      reachable st → requests st !! uid = None →
      reachable (final (async_call name args uid st))
  | reach_response response st :
      reachable st → reachable (final (on_response response st))
  | reach_wait promise st :
      reachable st → reachable (final (wait_for_response promise st)).

(** Every delivered response is filed under its own call id, next to a
    pending promise whose event is set; every pending promise is filed
    under its own call id and its event exists; the event of a pending
    promise without a delivered response is not set; two pending promises
    never share an event. *)
Definition consistent (st : ChanState) : Prop :=
  (∀ k r, responses st !! k = Some r →
     rs_call_id r = Some k ∧
     ∃ p, requests st !! k = Some p ∧ events st !! _event p = Some true) ∧
  (∀ k p, requests st !! k = Some p →
     call_id p = k ∧ is_Some (events st !! _event p)) ∧
  (∀ k p, requests st !! k = Some p → responses st !! k = None →
     events st !! _event p = Some false) ∧
  (∀ k1 k2 p1 p2, requests st !! k1 = Some p1 → requests st !! k2 = Some p2 →
     _event p1 = _event p2 → k1 = k2).

(** ** Two endpoints

    A codec that decodes what it encoded for one request and its response,
    to run a call from one channel through the dispatcher of another. *)
Module Loopback.

Definition add_message : RpcMessage := new_request "add" Demo.add_args "a1".

Definition add_response : RpcResponse := mkResponse (Some "a1") (PyInt 3) (Some "int").

(** [count] is annotated [int] and returns a string; [version_of] has no
    annotation and returns an integer; [touch] is annotated [-> None] and
    returns [None]. *)
Definition count_request : RpcRequest := mkRequest "count" ∅ "k1".
Definition version_of_request : RpcRequest := mkRequest "version_of" ∅ "v2".
Definition touch_request : RpcRequest := mkRequest "touch" ∅ "t1".

Definition methods : gmap string attribute :=
  {[ "count" := Method (Some Tint) (λ _, mret (PyStr "three"));
     "version_of" := Method None (λ _, mret (PyInt 3));
     "touch" := Method (Some Tnone) (λ _, mret PyNone) ]}.

Definition wire : list (string * RpcMessage) :=
  [ (Demo.to_json add_message, add_message);
    (Demo.to_json (mkMessage None (Some add_response)), mkMessage None (Some add_response));
    ("count+ping", mkMessage (Some count_request) (Some Demo.ping_response));
    ("{}", mkMessage None None) ].

Definition parse (data : string) : option RpcMessage :=
  (list_to_map wire : gmap string RpcMessage) !! data.

Definition pydantic : Pydantic :=
  {| parse_raw := parse; json := Demo.to_json;
     validate := Demo.check; py_str := Demo.str |}.

End Loopback.

(** ** Calls in flight

    [call] as the event loop runs it, from one [await] to the next.  A
    caller starts [async_call] and is suspended in [await self.send]; at
    its next turn it registers its promise and goes straight on into
    [wait_for_response], where it is suspended in [await promise.wait()];
    at every later turn it stays suspended while the event of its promise
    is not set, and otherwise finishes [wait_for_response] and returns.
    Between the turns of the callers the dispatcher hands incoming
    responses to [on_response]. *)
Inductive call_task :=
  | CallStart (name : string) (args : gmap string pyval) (uid : string)
  | CallSending (msg : RpcMessage)
  | CallWaiting (promise : RpcPromise)
  | CallReturned (response : RpcResponse)
  | CallRaised (e : exn).

(** One turn of a caller. *)
Definition call_step `{!Pydantic} (t : call_task) (st : ChanState)
    : call_task * ChanState :=
  match t with
  | CallStart name args uid =>
      match async_call_send name args uid st with
      | Return msg st' => (CallSending msg, st')
      | Raise e st' => (CallRaised e, st')
      | Blocked st' => (t, st')
      end
  | CallSending msg =>
      match msg_request msg with
      | Some request =>
          match async_call_register request st with
          | Return promise st' => (CallWaiting promise, st')
          | Raise e st' => (CallRaised e, st')
          | Blocked st' => (t, st')
          end
      | None => (CallRaised (AttributeError "call_id"), st)
      end
  | CallWaiting promise =>
      match wait_for_response promise st with
      | Return response st' => (CallReturned response, st')
      | Raise e st' => (CallRaised e, st')
      | Blocked st' => (t, st')
      end
  | CallReturned _ | CallRaised _ => (t, st)
  end.

(** The callers, the channel they share and the responses the other side
    has yet to deliver. *)
Record config := mkConfig {
  tasks : list call_task;
  chan : ChanState;
  undelivered : list RpcResponse
}.

(** A turn of the [i]-th caller, and the arrival of a response. *)
Definition turn `{!Pydantic} (i : nat) (cfg : config) : config :=
  match tasks cfg !! i with
  | Some t => {| tasks := <[i := (call_step t (chan cfg)).1]> (tasks cfg);
                 chan := (call_step t (chan cfg)).2;
                 undelivered := undelivered cfg |}
  | None => cfg
  end.

Definition receive (response : RpcResponse) (cfg : config) : config :=
  {| tasks := tasks cfg;
     chan := final (on_response response (chan cfg));
     undelivered := filter (λ r, r ≠ response) (undelivered cfg) |}.

(** The caller of [uid] has not registered its promise yet. *)
Definition unregistered (uid : string) (t : call_task) : Prop :=
  match t with
  | CallStart _ _ uid' => uid' = uid
  | CallSending msg => rq_call_id <$> msg_request msg = Some uid
  | _ => False
  end.

(** Any caller may take a turn at any time.  Any response not yet
    delivered may come in at any time once the promise of the call it
    answers is registered. *)
Inductive step `{!Pydantic} : config → config → Prop :=
  | step_turn cfg i :
      i < length (tasks cfg) → step cfg (turn i cfg)
  | step_receive cfg response :
      response ∈ undelivered cfg →
      (∀ t uid, t ∈ tasks cfg → unregistered uid t →
                rs_call_id response ≠ Some uid) →
      step cfg (receive response cfg).

(** No call issued yet, no response delivered yet. *)
Definition start (calls : list (string * gmap string pyval * string))
    (incoming : list RpcResponse) (st : ChanState) : config :=
  {| tasks := (λ c, CallStart c.1.1 c.1.2 c.2) <$> calls;
     chan := st;
     undelivered := incoming |}.

(** Where the [i]-th call stands with respect to its own response: the
    response has not come in and the caller has not started, or is
    suspended in its send, or is suspended in [wait_for_response], where a
    turn leaves it suspended with the channel untouched; or the response
    has come in and the caller's next turn returns it; or the caller has
    returned it. *)
Definition call_progress `{!Pydantic} (cfg : config) (i : nat)
    (name : string) (args : gmap string pyval) (uid : string)
    (response : RpcResponse) : Prop :=
  (response ∈ undelivered cfg ∧
   (tasks cfg !! i = Some (CallStart name args uid) ∨
    tasks cfg !! i = Some (CallSending (new_request name args uid)) ∨
    ∃ promise,
      tasks cfg !! i = Some (CallWaiting promise) ∧
      _request promise = mkRequest name args uid ∧
      call_step (CallWaiting promise) (chan cfg) = (CallWaiting promise, chan cfg))) ∨
  ((response ∉ undelivered cfg) ∧
   ∃ promise st',
     tasks cfg !! i = Some (CallWaiting promise) ∧
     _request promise = mkRequest name args uid ∧
     call_step (CallWaiting promise) (chan cfg) = (CallReturned response, st')) ∨
  ((response ∉ undelivered cfg) ∧
   tasks cfg !! i = Some (CallReturned response)).

(** What holds of every caller while calls are in flight. *)
Definition task_inv (incoming : list RpcResponse) (cfg : config)
    (name : string) (args : gmap string pyval) (uid : string) (t : call_task) : Prop :=
  match t with
  | CallStart name' args' uid' =>
      (name', args', uid') = (name, args, uid) ∧
      ∀ r, r ∈ incoming → rs_call_id r = Some uid → r ∈ undelivered cfg
  | CallSending msg =>
      msg = new_request name args uid ∧
      ∀ r, r ∈ incoming → rs_call_id r = Some uid → r ∈ undelivered cfg
  | CallWaiting p =>
      _request p = mkRequest name args uid ∧
      call_id p = uid ∧
      requests (chan cfg) !! uid = Some p ∧
      is_Some (events (chan cfg) !! _event p) ∧
      ∀ r, r ∈ incoming → rs_call_id r = Some uid →
        (r ∈ undelivered cfg ∧ events (chan cfg) !! _event p = Some false) ∨
        ((r ∉ undelivered cfg) ∧ events (chan cfg) !! _event p = Some true ∧
         responses (chan cfg) !! uid = Some r)
  | CallReturned r =>
      r ∈ incoming ∧ rs_call_id r = Some uid ∧ (r ∉ undelivered cfg)
  | CallRaised _ => False
  end.

Definition in_flight_inv (calls : list (string * gmap string pyval * string))
    (incoming : list RpcResponse) (cfg : config) : Prop :=
  length (tasks cfg) = length calls ∧
  (∀ r, r ∈ undelivered cfg → r ∈ incoming) ∧
  (∀ i name args uid t,
     calls !! i = Some (name, args, uid) → tasks cfg !! i = Some t →
     task_inv incoming cfg name args uid t) ∧
  (∀ i j p q,
     tasks cfg !! i = Some (CallWaiting p) → tasks cfg !! j = Some (CallWaiting q) →
     _event p = _event q → i = j).

(** Two callers, [call("ping")] and [call("pong")] on the small endpoint.
    Both send, both register, the first is given a turn too early, then
    the responses come in in reverse order, each followed by a turn of its
    caller. *)
Definition reverse_order_run : config :=
  @turn Demo.pydantic 0
    (receive Demo.ping_response
      (@turn Demo.pydantic 1
        (receive Demo.pong_response
          (@turn Demo.pydantic 0
            (@turn Demo.pydantic 1
              (@turn Demo.pydantic 0
                (@turn Demo.pydantic 1
                  (@turn Demo.pydantic 0
                    (start Demo.two_calls [Demo.pong_response; Demo.ping_response]
                       init))))))))).

(** * Properties *)

(** Unfolds the coroutine combinators down to matches on outcomes. *)
Ltac coro_unfold :=
  unfold mbind, mret, coro_mbind, coro_mret, coro_bind, coro_ret,
    logger_info, logger_error, send, modify, gets, raise,
    RpcPromise_set, RpcPromise_wait, Event_set, Event_wait in *.

(** ** Equations of the response path *)

Lemma on_response_known response cid promise st :
  rs_call_id response = Some cid →
  requests st !! cid = Some promise →
  on_response response st =
    Return tt (set_events (insert (_event promise) true)
                (set_responses (insert cid response)
                  (add_log (Info "Handling RPC response" (LResponse response)) st))).
Proof.
  intros Hcid Hreq. unfold on_response, subscript. coro_unfold. simpl.
  rewrite Hcid. rewrite bool_decide_eq_true_2.
  - simpl. by rewrite Hreq.
  - apply elem_of_dom. eauto.
Qed.

Lemma on_response_discard response st :
  (∀ cid, rs_call_id response = Some cid → requests st !! cid = None) →
  on_response response st =
    Return tt (add_log (Info "Handling RPC response" (LResponse response)) st).
Proof.
  intros Hun. unfold on_response. coro_unfold. simpl.
  destruct (rs_call_id response) as [cid|]; [|done].
  rewrite bool_decide_eq_false_2; [done|].
  rewrite not_elem_of_dom. by apply Hun.
Qed.

Lemma wait_for_response_ready promise response st :
  ready st promise response →
  wait_for_response promise st =
    Return response
      (set_responses (delete (call_id promise))
        (set_requests (delete (call_id promise)) st)).
Proof.
  intros (Hev & Hresp & [p Hreq]).
  unfold wait_for_response, subscript, del_requests, del_responses.
  coro_unfold. simpl. rewrite Hev. rewrite Hresp. rewrite Hreq. simpl.
  by rewrite Hresp.
Qed.

Lemma wait_for_response_Return promise response st st' :
  wait_for_response promise st = Return response st' →
  ready st promise response ∧
  st' = set_responses (delete (call_id promise))
          (set_requests (delete (call_id promise)) st).
Proof.
  unfold wait_for_response, subscript, del_requests, del_responses, ready.
  coro_unfold. simpl.
  destruct (events st !! _event promise) as [[]|] eqn:Hev; try done.
  destruct (responses st !! call_id promise) as [r|] eqn:Hresp; try done.
  destruct (requests st !! call_id promise) as [p|] eqn:Hreq; try done.
  simpl. rewrite Hresp. intros [= <- <-]. eauto.
Qed.

(** ** Equations of the call path *)

Section call_path.
Context `{!Pydantic}.

Lemma async_call_send_Return name args uid st :
  async_call_send name args uid st =
    Return (new_request name args uid)
      (add_sent (json (new_request name args uid))
        (add_log (Info "Calling RPC method" (LMessage (new_request name args uid))) st)).
Proof. done. Qed.

Lemma async_call_register_Return request st :
  let promise := {| _request := request; _id := rq_call_id request;
                    _event := fresh (dom (events st)) |} in
  async_call_register request st =
    Return promise
      (set_requests (insert (rq_call_id request) promise)
        (set_events (insert (_event promise) false) st)).
Proof. done. Qed.

Lemma async_call_Return name args uid st :
  ∃ promise st',
    async_call name args uid st = Return promise st' ∧
    call_id promise = uid ∧
    rq_call_id (_request promise) = uid ∧
    (_event promise ∉ dom (events st)) ∧
    requests st' = <[uid := promise]> (requests st) ∧
    responses st' = responses st ∧
    events st' = <[_event promise := false]> (events st).
Proof.
  eexists _, _. split; [reflexivity|]. simpl.
  split_and!; try done. apply is_fresh.
Qed.

(** [call] always reaches its [await]: the event of a new promise is not
    set, so the caller is suspended in the state [async_call] left. *)
Lemma call_suspends name args uid st :
  ∃ promise st',
    async_call name args uid st = Return promise st' ∧
    call name args uid st = Blocked st'.
Proof.
  eexists _, _. split; [reflexivity|].
  unfold call, wait_for_response. coro_unfold. simpl.
  by rewrite lookup_insert_eq.
Qed.

End call_path.

(** ** Several calls in flight *)

(** What one incoming response leaves alone. *)
Lemma on_response_frame response st :
  ∃ st',
    on_response response st = Return tt st' ∧
    requests st' = requests st ∧
    socket st' = socket st ∧
    (∀ k, rs_call_id response ≠ Some k ∨ requests st !! k = None →
          responses st' !! k = responses st !! k) ∧
    (∀ l, events st !! l = Some true → events st' !! l = Some true).
Proof.
  destruct (rs_call_id response) as [cid|] eqn:Hcid.
  - destruct (requests st !! cid) as [p|] eqn:Hreq.
    + eexists. split; [by apply on_response_known|]. simpl.
      split_and!; try done.
      * intros k [Hk|Hk]; [|apply lookup_insert_ne; congruence].
        apply lookup_insert_ne. congruence.
      * intros l Hl. destruct (decide (_event p = l)) as [->|Hne].
        -- apply lookup_insert_eq.
        -- by rewrite lookup_insert_ne.
    + eexists. split; [apply on_response_discard; congruence|]. done.
  - eexists. split; [apply on_response_discard; congruence|]. done.
Qed.

Lemma deliver_all_cons response rest st st1 :
  on_response response st = Return tt st1 →
  deliver_all (response :: rest) st = deliver_all rest st1.
Proof. intros H. simpl. coro_unfold. unfold coro_bind. by rewrite H. Qed.

Lemma deliver_all_frame incoming st :
  ∃ st',
    deliver_all incoming st = Return tt st' ∧
    requests st' = requests st ∧
    socket st' = socket st ∧
    (∀ k, Some k ∉ rs_call_id <$> incoming ∨ requests st !! k = None →
          responses st' !! k = responses st !! k) ∧
    (∀ l, events st !! l = Some true → events st' !! l = Some true).
Proof.
  revert st. induction incoming as [|r rest IH]; intros st.
  - exists st. done.
  - destruct (on_response_frame r st) as (st1 & Hr & Hreq1 & Hsock1 & Hresp1 & Hev1).
    destruct (IH st1) as (st' & Hrest & Hreq & Hsock & Hresp & Hev).
    exists st'. rewrite (deliver_all_cons _ _ _ _ Hr).
    split_and!; try congruence.
    + intros k Hk. rewrite Hresp, Hresp1; [done| |].
      * destruct Hk as [Hk|Hk]; [left|by right].
        intros Heq. apply Hk. rewrite fmap_cons, Heq. left.
      * destruct Hk as [Hk|Hk]; [left|right; congruence].
        intros Hin. apply Hk. rewrite fmap_cons. by right.
    + auto.
Qed.

(** After a batch of responses with distinct call ids, each one that
    matched a pending call is filed and its promise is set. *)
Lemma deliver_all_ready incoming st st' response cid promise :
  NoDup (rs_call_id <$> incoming) →
  response ∈ incoming →
  rs_call_id response = Some cid →
  requests st !! cid = Some promise →
  deliver_all incoming st = Return tt st' →
  responses st' !! cid = Some response ∧
  events st' !! _event promise = Some true.
Proof.
  revert st. induction incoming as [|r rest IH]; intros st Hnd Hin Hcid Hreq Hrun.
  - by apply elem_of_nil in Hin.
  - rewrite fmap_cons in Hnd. apply NoDup_cons in Hnd as [Hfresh Hnd].
    apply elem_of_cons in Hin as [<-|Hin].
    + pose proof (on_response_known _ _ _ _ Hcid Hreq) as Hr.
      rewrite (deliver_all_cons _ _ _ _ Hr) in Hrun.
      destruct (deliver_all_frame rest
        (set_events (insert (_event promise) true)
          (set_responses (insert cid response)
            (add_log (Info "Handling RPC response" (LResponse response)) st))))
        as (st2 & Hrest & _ & _ & Hresp & Hev).
      rewrite Hrest in Hrun. injection Hrun as <-. split.
      * rewrite Hresp; [apply lookup_insert_eq|]. left. by rewrite <- Hcid.
      * apply Hev. apply lookup_insert_eq.
    + destruct (on_response_frame r st) as (st1 & Hr & Hreq1 & _).
      rewrite (deliver_all_cons _ _ _ _ Hr) in Hrun.
      apply (IH st1); try done. by rewrite Hreq1.
Qed.

Section issue.
Context `{!Pydantic}.

Lemma issue_all_Return calls st :
  NoDup (uids calls) →
  ∃ promises st',
    issue_all calls st = Return promises st' ∧
    call_id <$> promises = uids calls ∧
    (∀ p, p ∈ promises →
          requests st' !! call_id p = Some p ∧
          rq_call_id (_request p) = call_id p) ∧
    (∀ k, k ∉ uids calls → requests st' !! k = requests st !! k).
Proof.
  revert st. induction calls as [|[[name args] uid] rest IH]; intros st Hnd.
  - exists [], st. split_and!; try done. intros p Hp. by apply elem_of_nil in Hp.
  - unfold uids in Hnd. rewrite fmap_cons in Hnd. simpl in Hnd.
    apply NoDup_cons in Hnd as [Hfresh Hnd].
    destruct (async_call_Return name args uid st)
      as (p & st1 & Hcall & Hid & Hrq & _ & Hreq1 & _).
    destruct (IH st1 Hnd) as (ps & st' & Hrest & Hids & Hps & Hframe).
    exists (p :: ps), st'. split_and!.
    + change (issue_all ((name, args, uid) :: rest) st)
        with (coro_bind (λ promise, coro_bind (λ promises, coro_ret (promise :: promises))
                                      (issue_all rest)) (async_call name args uid) st).
      unfold coro_bind at 1. rewrite Hcall. unfold coro_bind. by rewrite Hrest.
    + unfold uids. rewrite !fmap_cons. simpl. f_equal; done.
    + intros q Hq. apply elem_of_cons in Hq as [->|Hq]; [|by apply Hps].
      split; [|congruence]. rewrite Hid, Hframe by done.
      rewrite Hreq1. apply lookup_insert_eq.
    + intros k Hk. unfold uids in Hk. rewrite fmap_cons in Hk. simpl in Hk.
      apply not_elem_of_cons in Hk as [Hne Hk].
      rewrite Hframe by done. rewrite Hreq1. by apply lookup_insert_ne.
Qed.

End issue.

Lemma Forall2_impl_elem_of {A B} (P Q : A → B → Prop) l k :
  Forall2 P l k → (∀ x y, x ∈ l → P x y → Q x y) → Forall2 Q l k.
Proof.
  induction 1 as [|x y l k Hxy _ IH]; intros Himp; constructor.
  - apply Himp; [left|done].
  - apply IH. intros x' y' Hx'. apply Himp. by right.
Qed.

Lemma await_all_Return handles st :
  NoDup (call_id <$> handles) →
  (∀ p, p ∈ handles → ∃ r, ready st p r) →
  ∃ out st',
    await_all handles st = Return out st' ∧
    Forall2 (λ p r, responses st !! call_id p = Some r) handles out.
Proof.
  revert st. induction handles as [|p rest IH]; intros st Hnd Hready.
  - exists [], st. split; [done|constructor].
  - rewrite fmap_cons in Hnd. apply NoDup_cons in Hnd as [Hfresh Hnd].
    destruct (Hready p) as [r Hr]; [left|].
    pose proof (wait_for_response_ready _ _ _ Hr) as Hwait.
    set (st1 := set_responses (delete (call_id p))
                  (set_requests (delete (call_id p)) st)) in *.
    assert (Hother : ∀ q, q ∈ rest → call_id q ≠ call_id p).
    { intros q Hq Heq. apply Hfresh. rewrite <- Heq.
      apply list_elem_of_fmap. eauto. }
    destruct (IH st1 Hnd) as (out & st' & Hrest & Hout).
    { intros q Hq. destruct (Hready q) as [rq (Hev & Hresp & Hreq)]; [by right|].
      exists rq. unfold ready, st1. simpl.
      rewrite !lookup_delete_ne by (apply not_eq_sym; auto). done. }
    exists (r :: out), st'. split.
    + change (await_all (p :: rest) st)
        with (coro_bind (λ response, coro_bind (λ others, coro_ret (response :: others))
                                       (await_all rest)) (wait_for_response p) st).
      unfold coro_bind at 1. rewrite Hwait. unfold coro_bind. by rewrite Hrest.
    + constructor; [by destruct Hr as (_ & ? & _)|].
      eapply Forall2_impl_elem_of; [exact Hout|].
      intros q rq Hq. unfold st1. simpl.
      by rewrite lookup_delete_ne by (apply not_eq_sym; auto).
Qed.

(** Delivered responses stay filed under their own call id, whatever the
    channel does. *)
Lemma responses_keyed_init : responses_keyed init.
Proof. intros k r. unfold init. simpl. by rewrite lookup_empty. Qed.

Lemma responses_keyed_on_response response st st' :
  responses_keyed st → on_response response st = Return tt st' → responses_keyed st'.
Proof.
  intros Hinv Hrun k r.
  destruct (rs_call_id response) as [cid|] eqn:Hcid.
  - destruct (requests st !! cid) as [p|] eqn:Hreq.
    + rewrite (on_response_known _ _ _ _ Hcid Hreq) in Hrun. injection Hrun as <-.
      simpl. destruct (decide (cid = k)) as [->|Hne].
      * rewrite lookup_insert_eq. congruence.
      * rewrite lookup_insert_ne by done. apply Hinv.
    + rewrite on_response_discard in Hrun by congruence. injection Hrun as <-. apply Hinv.
  - rewrite on_response_discard in Hrun by congruence. injection Hrun as <-. apply Hinv.
Qed.

Lemma responses_keyed_wait promise response st st' :
  responses_keyed st → wait_for_response promise st = Return response st' →
  responses_keyed st' ∧ rs_call_id response = Some (call_id promise).
Proof.
  intros Hinv Hrun. apply wait_for_response_Return in Hrun as [(_ & Hresp & _) ->].
  split; [|by apply Hinv]. intros k r. simpl.
  intros [_ Hk]%lookup_delete_Some. by apply Hinv.
Qed.

Lemma responses_keyed_async_call `{!Pydantic} name args uid promise st st' :
  responses_keyed st → async_call name args uid st = Return promise st' →
  responses_keyed st'.
Proof.
  intros Hinv Hrun.
  destruct (async_call_Return name args uid st) as (p & st1 & Hcall & _ & _ & _ & _ & Hresp & _).
  rewrite Hcall in Hrun. injection Hrun as _ <-.
  unfold responses_keyed. rewrite Hresp. apply Hinv.
Qed.

(** ** The claims *)

(** C1 (the code does otherwise): [async_call] hands the request to the
    transport first and registers the promise only after the send.  When
    the response is dispatched while the send is suspended, [on_response]
    finds no entry for the call id and discards it; the promise registered
    afterwards is never set and [wait_for_response] stays suspended. *)
Theorem async_call_registers_after_send `{!Pydantic}
    name args uid (response : RpcResponse) st :
  requests st !! uid = None →
  rs_call_id response = Some uid →
  ∃ msg request st1 st2 promise st3,
    async_call_send name args uid st = Return msg st1 ∧
    msg_request msg = Some request ∧ rq_call_id request = uid ∧
    socket st1 = socket st ++ [json msg] ∧
    requests st1 !! uid = None ∧
    on_response response st1 = Return tt st2 ∧
    responses st2 = responses st ∧
    async_call_register request st2 = Return promise st3 ∧
    call_id promise = uid ∧
    responses st3 !! uid = responses st !! uid ∧
    events st3 !! _event promise = Some false ∧
    wait_for_response promise st3 = Blocked st3.
Proof.
  intros Hun Hcid.
  eexists _, _, _, _, _, _.
  split; [apply async_call_send_Return|].
  split; [reflexivity|]. split; [reflexivity|]. split; [reflexivity|].
  split; [exact Hun|].
  split; [apply on_response_discard; intros cid; rewrite Hcid; by intros [= <-]|].
  split; [reflexivity|].
  split; [apply async_call_register_Return|].
  split; [reflexivity|]. split; [reflexivity|]. simpl.
  split; [apply lookup_insert_eq|].
  unfold wait_for_response. coro_unfold. simpl. by rewrite lookup_insert_eq.
Qed.

(** C2 (the code does otherwise): a request naming an attribute the methods
    object does not have makes [getattr] raise [AttributeError].
    [on_request] does not catch it and [on_message] only catches
    [ValidationError], so the exception leaves [on_message]; nothing is
    sent to the requester and [UnknownMethodException] is never raised. *)
Theorem on_request_unknown_method_raises_AttributeError `{!Pydantic}
    methods request st :
  methods !! rq_method request = None →
  let st' := add_log (Info "Handling RPC request" (LRequest request)) st in
  on_request methods request st = Raise (AttributeError (rq_method request)) st' ∧
  socket st' = socket st ∧
  ∀ data response,
    parse_raw data = Some {| msg_request := Some request; msg_response := response |} →
    on_message methods data st = Raise (AttributeError (rq_method request)) st'.
Proof.
  intros Hnone st'.
  assert (Hreq : on_request methods request st
                 = Raise (AttributeError (rq_method request)) st').
  { unfold on_request, getattr. coro_unfold. simpl. by rewrite Hnone. }
  split; [done|]. split; [done|].
  intros data response Hparse.
  unfold on_message, try_except_ValidationError. coro_unfold.
  rewrite Hparse. simpl. fold (@coro_bind). by rewrite Hreq.
Qed.

(** C3: a message that does not decode never makes [on_message] raise.  The
    failure is logged as an error and nothing else changes: both tables,
    the events and the socket are as before, so the channel handles the
    next message as if the malformed one had not arrived. *)
Theorem on_message_malformed `{!Pydantic} methods data st :
  parse_raw data = None →
  ∃ st',
    on_message methods data st = Return tt st' ∧
    st' = add_log (Error "Failed to parse message" (LData data)) st ∧
    log st' = log st ++ [Error "Failed to parse message" (LData data)] ∧
    requests st' = requests st ∧
    responses st' = responses st ∧
    events st' = events st ∧
    socket st' = socket st.
Proof.
  intros Hparse. eexists. split.
  - unfold on_message, try_except_ValidationError. coro_unfold.
    rewrite Hparse. reflexivity.
  - done.
Qed.

(** One schedule among many: all calls are issued, then all responses
    come in, in any order, then the handles are awaited, in any order.
    Every [wait_for_response] returns the one incoming response whose call
    id is the call id of the handle's own request. *)
Lemma phased_calls_return_own_responses `{!Pydantic} calls incoming st :
  NoDup (uids calls) →
  rs_call_id <$> incoming ≡ₚ Some <$> uids calls →
  ∃ promises st1 st2,
    issue_all calls st = Return promises st1 ∧
    call_id <$> promises = uids calls ∧
    deliver_all incoming st1 = Return tt st2 ∧
    ∀ handles, handles ≡ₚ promises →
      ∃ out st3,
        await_all handles st2 = Return out st3 ∧
        Forall2 (λ p r, r ∈ incoming ∧
                        rs_call_id r = Some (rq_call_id (_request p)) ∧
                        ∀ r', r' ∈ incoming → rs_call_id r' = rs_call_id r → r' = r)
                handles out.
Proof.
  intros Hnd Hperm.
  destruct (issue_all_Return calls st Hnd) as (ps & st1 & Hissue & Hids & Hps & _).
  destruct (deliver_all_frame incoming st1) as (st2 & Hdel & Hreq2 & _).
  assert (Hnd_in : NoDup (rs_call_id <$> incoming)).
  { rewrite Hperm. by apply (NoDup_fmap_2 _). }
  exists ps, st1, st2. split_and!; try done.
  intros handles Hh.
  assert (Hfind : ∀ p, p ∈ handles → ∃ r,
            r ∈ incoming ∧ rs_call_id r = Some (call_id p) ∧ ready st2 p r).
  { intros p Hp. rewrite Hh in Hp. destruct (Hps p Hp) as [Hreq _].
    assert (Some (call_id p) ∈ rs_call_id <$> incoming) as Hin.
    { rewrite Hperm, <- Hids. apply list_elem_of_fmap.
      eexists. split; [done|]. apply list_elem_of_fmap. eauto. }
    apply list_elem_of_fmap in Hin as (r & Hcid & Hr).
    exists r. split; [done|]. split; [done|].
    destruct (deliver_all_ready _ _ _ _ _ _ Hnd_in Hr (eq_sym Hcid) Hreq Hdel)
      as [Hresp Hev].
    repeat split; try done. rewrite Hreq2, Hreq. eauto. }
  destruct (await_all_Return handles st2) as (out & st3 & Hawait & Hout).
  { rewrite Hh, Hids. done. }
  { intros p Hp. destruct (Hfind p Hp) as (r & _ & _ & Hr). eauto. }
  exists out, st3. split; [done|].
  eapply Forall2_impl_elem_of; [exact Hout|].
  intros p r Hp Hresp. simpl in Hresp.
  destruct (Hfind p Hp) as (r0 & Hr0 & Hcid0 & (_ & Hresp0 & _)).
  assert (r = r0) as -> by congruence.
  split; [done|]. split.
  - rewrite Hh in Hp. destruct (Hps p Hp) as [_ ->]. done.
  - intros r' Hr' Hcid'.
    assert (Hp' : p ∈ ps) by (by rewrite <- Hh).
    destruct (Hps p Hp') as [Hreq _].
    destruct (deliver_all_ready incoming st1 st2 r' (call_id p) p) as [Hresp' _];
      try done; congruence.
Qed.

(** C5: when [wait_for_response] returns, the call id of the handle has
    been removed from the pending table and from the delivered-response
    map, and every other entry of both maps is as it was. *)
Theorem wait_for_response_no_leak promise response st st' :
  wait_for_response promise st = Return response st' →
  requests st' !! call_id promise = None ∧
  responses st' !! call_id promise = None ∧
  requests st' = delete (call_id promise) (requests st) ∧
  responses st' = delete (call_id promise) (responses st) ∧
  (∀ k, k ≠ call_id promise →
        requests st' !! k = requests st !! k ∧
        responses st' !! k = responses st !! k).
Proof.
  intros [_ ->]%wait_for_response_Return. simpl.
  split_and!; try done; try apply lookup_delete_eq.
  intros k Hk. by rewrite !lookup_delete_ne.
Qed.

(** C6: a response whose call id is missing, or is not a key of the pending
    table, is discarded: [on_response] returns normally, and the tables,
    the events of the pending calls and the socket are untouched (the only
    trace is the log line written for every response). *)
Theorem on_response_unknown_call_id response st :
  (∀ cid, rs_call_id response = Some cid → requests st !! cid = None) →
  ∃ st',
    on_response response st = Return tt st' ∧
    requests st' = requests st ∧
    responses st' = responses st ∧
    events st' = events st ∧
    socket st' = socket st ∧
    log st' = log st ++ [Info "Handling RPC response" (LResponse response)].
Proof.
  intros Hun. eexists. split; [by apply on_response_discard|]. done.
Qed.

(** C7: when the invoked method returns the [NoResponse] sentinel,
    [on_request] returns in the very state the method left: it hands
    nothing to the socket. *)
Theorem on_request_NoResponse_sends_nothing `{!Pydantic}
    methods request return_annotation body st st' :
  methods !! rq_method request = Some (Method return_annotation body) →
  body (rq_arguments request)
       (add_log (Info "Handling RPC request" (LRequest request)) st)
    = Return NoResponse st' →
  ∃ st'',
    on_request methods request st = Return tt st'' ∧
    st'' = st' ∧
    socket st'' = socket st'.
Proof.
  intros Hattr Hbody. exists st'. split; [|done].
  unfold on_request, getattr, reply. coro_unfold. simpl. rewrite Hattr. simpl.
  by rewrite Hbody.
Qed.

(** C8: once [wait_for_response] has returned for a handle, awaiting the
    same handle again raises [KeyError] on its call id.  The event of the
    handle is still set, so the second await does not suspend, and the
    delivered-response entry is gone.  This holds whatever responses came
    in between, late duplicates for the same call id included. *)
Theorem wait_for_response_twice_raises_KeyError promise response st st' incoming :
  wait_for_response promise st = Return response st' →
  ∃ st'',
    deliver_all incoming st' = Return tt st'' ∧
    wait_for_response promise st'' = Raise (KeyError (call_id promise)) st''.
Proof.
  intros [(Hev & _) ->]%wait_for_response_Return.
  set (st1 := set_responses _ _).
  destruct (deliver_all_frame incoming st1) as (st2 & Hdel & Hreq & _ & Hresp & Hevs).
  exists st2. split; [done|].
  assert (Hgone : requests st1 !! call_id promise = None) by apply lookup_delete_eq.
  unfold wait_for_response, subscript. coro_unfold. simpl.
  rewrite (Hevs _ Hev). rewrite Hresp by (by right).
  unfold st1. simpl. by rewrite lookup_delete_eq.
Qed.


(** C10 (as the code has it): for an envelope carrying both fields,
    [on_message] runs [on_request] first and, once it has returned, runs
    [on_response] on the state it left; the response is dispatched, the
    envelope is not rejected. *)
Theorem on_message_request_then_response `{!Pydantic}
    methods data request response st st1 :
  parse_raw data = Some {| msg_request := Some request; msg_response := Some response |} →
  on_request methods request st = Return tt st1 →
  ∃ st2,
    on_response response st1 = Return tt st2 ∧
    on_message methods data st = Return tt st2.
Proof.
  intros Hparse Hreq.
  destruct (on_response_frame response st1) as (st2 & Hresp & _).
  exists st2. split; [done|].
  unfold on_message, try_except_ValidationError. coro_unfold.
  rewrite Hparse. simpl. fold (@coro_bind). rewrite Hreq. by rewrite Hresp.
Qed.

(** ** The claims on the small endpoint *)

Section demo.
Import Demo.

Lemma ping_handle_issued :
  async_call "ping" ∅ "c1" init = Return ping_handle one_pending.
Proof. reflexivity. Qed.

(** The response to "c1" comes in while the send of its request is
    suspended: it is dropped and the caller stays suspended. *)
Lemma async_call_registers_after_send_witness :
  requests init !! "c1" = None ∧
  rs_call_id ping_response = Some "c1" ∧
  ∃ promise st3,
    call_id promise = "c1" ∧
    responses st3 !! "c1" = None ∧
    wait_for_response promise st3 = Blocked st3.
Proof.
  split; [reflexivity|]. split; [reflexivity|].
  destruct (async_call_registers_after_send "ping" ∅ "c1" ping_response init
              eq_refl eq_refl)
    as (msg & request & st1 & st2 & promise & st3 & _ & _ & _ & _ & _ & _ & _ & _
        & Hid & Hresp & _ & Hwait).
  exists promise, st3. split; [exact Hid|]. split; [exact Hresp|exact Hwait].
Defined.

(** [call("multiply", {a: 2, b: 3})] against an object without [multiply]. *)
Lemma on_request_unknown_method_witness :
  methods !! "multiply" = None ∧
  parse_raw "multiply" = Some (mkMessage (Some multiply_request) None) ∧
  on_request methods multiply_request init
    = Raise (AttributeError "multiply")
            (add_log (Info "Handling RPC request" (LRequest multiply_request)) init) ∧
  on_message methods "multiply" init
    = Raise (AttributeError "multiply")
            (add_log (Info "Handling RPC request" (LRequest multiply_request)) init).
Proof.
  assert (Hnone : methods !! rq_method multiply_request = None) by reflexivity.
  split; [exact Hnone|]. split; [reflexivity|].
  destruct (on_request_unknown_method_raises_AttributeError
              methods multiply_request init Hnone) as (Hreq & _ & Hmsg).
  split; [exact Hreq|]. apply (Hmsg "multiply" None). reflexivity.
Defined.

Lemma on_message_malformed_witness :
  parse_raw "{not json" = None ∧
  ∃ st',
    on_message methods "{not json" one_pending = Return tt st' ∧
    requests st' = requests one_pending ∧
    responses st' = responses one_pending ∧
    socket st' = socket one_pending.
Proof.
  assert (Hparse : parse_raw "{not json" = None) by reflexivity.
  split; [exact Hparse|].
  destruct (on_message_malformed methods "{not json" one_pending Hparse)
    as (st' & Hrun & _ & _ & Hreq & Hresp & _ & Hsock).
  exists st'. split; [exact Hrun|]. split; [exact Hreq|]. split; [exact Hresp|exact Hsock].
Defined.

Lemma wait_for_response_no_leak_witness :
  ∃ st',
    wait_for_response ping_handle one_delivered = Return ping_response st' ∧
    requests st' !! "c1" = None ∧
    responses st' !! "c1" = None.
Proof.
  eexists. split; [reflexivity|].
  destruct (wait_for_response_no_leak ping_handle ping_response one_delivered _ eq_refl)
    as (Hreq & Hresp & _).
  split; [exact Hreq|exact Hresp].
Defined.

Lemma on_response_unknown_call_id_witness :
  requests one_pending !! "zz" = None ∧
  ∃ st',
    on_response stray_response one_pending = Return tt st' ∧
    requests st' = requests one_pending ∧
    responses st' = responses one_pending ∧
    events st' = events one_pending.
Proof.
  assert (Hun : ∀ cid, rs_call_id stray_response = Some cid →
                       requests one_pending !! cid = None).
  { intros cid [= <-]. reflexivity. }
  split; [reflexivity|].
  destruct (on_response_unknown_call_id stray_response one_pending Hun)
    as (st' & Hrun & Hreq & Hresp & Hev & _).
  exists st'. split; [exact Hrun|]. split; [exact Hreq|]. split; [exact Hresp|exact Hev].
Defined.

Lemma on_request_NoResponse_witness :
  ∃ st'',
    on_request methods notify_request init = Return tt st'' ∧
    socket st'' = [].
Proof.
  destruct (on_request_NoResponse_sends_nothing methods notify_request None
              (λ _, mret NoResponse) init _ eq_refl eq_refl)
    as (st'' & Hrun & _ & Hsock).
  exists st''. split; [exact Hrun|exact Hsock].
Defined.

(** The handle of "c1" is awaited, a late duplicate of the response comes
    in, and the handle is awaited again. *)
Lemma wait_for_response_twice_witness :
  ∃ st' st'',
    wait_for_response ping_handle one_delivered = Return ping_response st' ∧
    deliver_all [ping_response] st' = Return tt st'' ∧
    wait_for_response ping_handle st'' = Raise (KeyError "c1") st''.
Proof.
  eexists.
  destruct (wait_for_response_twice_raises_KeyError ping_handle ping_response
              one_delivered _ [ping_response] eq_refl) as (st'' & Hdel & Hwait).
  exists st''. split; [reflexivity|]. split; [exact Hdel|exact Hwait].
Defined.


Lemma on_message_request_then_response_witness :
  parse_raw "notify+ping"
    = Some (mkMessage (Some notify_request) (Some ping_response)) ∧
  ∃ st1 st2,
    on_request methods notify_request one_pending = Return tt st1 ∧
    on_response ping_response st1 = Return tt st2 ∧
    on_message methods "notify+ping" one_pending = Return tt st2 ∧
    responses st2 !! "c1" = Some ping_response.
Proof.
  assert (Hparse : parse_raw "notify+ping"
            = Some (mkMessage (Some notify_request) (Some ping_response)))
    by reflexivity.
  split; [exact Hparse|].
  destruct (on_message_request_then_response methods "notify+ping" notify_request
              ping_response one_pending _ Hparse eq_refl) as (st2 & Hresp & Hmsg).
  eexists _, st2. split; [reflexivity|]. split; [exact Hresp|]. split; [exact Hmsg|].
  injection Hresp as <-. reflexivity.
Defined.


(** C10, as stated, fails: the envelope carries a request for [boom] and
    the response to the pending call "c1".  The method raises, the
    exception leaves [on_message], and the response is never dispatched:
    "c1" has no delivered response and its event is not set, although
    [on_response] alone would have filed it. *)
Lemma both_fields_response_skipped :
  parse_raw "boom+ping" = Some (mkMessage (Some boom_request) (Some ping_response)) ∧
  requests one_pending !! "c1" = Some ping_handle ∧
  (∃ st', on_message methods "boom+ping" one_pending = Raise (Exception "boom") st' ∧
          responses st' !! "c1" = None ∧
          events st' !! _event ping_handle = Some false) ∧
  (∃ st', on_response ping_response one_pending = Return tt st' ∧
          responses st' !! "c1" = Some ping_response ∧
          events st' !! _event ping_handle = Some true).
Proof.
  split; [reflexivity|]. split; [reflexivity|]. split.
  - exists (after (on_message methods "boom+ping") one_pending).
    split_and!; vm_compute; reflexivity.
  - exists (after (on_response ping_response) one_pending).
    split_and!; vm_compute; reflexivity.
Qed.

End demo.


(** * Further properties of the module *)

(** ** Helpers *)

Lemma wait_for_response_cases promise st :
  (∃ r, ready st promise r ∧
        wait_for_response promise st =
          Return r (set_responses (delete (call_id promise))
                     (set_requests (delete (call_id promise)) st))) ∨
  wait_for_response promise st = Blocked st ∨
  wait_for_response promise st = Raise (KeyError (call_id promise)) st.
Proof.
  unfold wait_for_response, subscript, del_requests, del_responses, ready.
  coro_unfold. simpl.
  destruct (events st !! _event promise) as [[]|] eqn:Hev; auto.
  destruct (responses st !! call_id promise) as [r|] eqn:Hresp; auto.
  destruct (requests st !! call_id promise) as [p|] eqn:Hreq; auto.
  left. exists r. simpl. rewrite Hresp. eauto.
Qed.

Lemma on_response_cases response st :
  (∃ cid p, rs_call_id response = Some cid ∧ requests st !! cid = Some p ∧
     on_response response st =
       Return tt (set_events (insert (_event p) true)
                   (set_responses (insert cid response)
                     (add_log (Info "Handling RPC response" (LResponse response)) st)))) ∨
  ((∀ cid, rs_call_id response = Some cid → requests st !! cid = None) ∧
   on_response response st =
     Return tt (add_log (Info "Handling RPC response" (LResponse response)) st)).
Proof.
  destruct (rs_call_id response) as [cid|] eqn:Hcid.
  - destruct (requests st !! cid) as [p|] eqn:Hreq.
    + left. exists cid, p. split_and!; try done. by apply on_response_known.
    + right. split; [intros ? [= <-]; done|]. apply on_response_discard. congruence.
  - right. split; [done|]. apply on_response_discard. congruence.
Qed.

Section helpers.
Context `{!Pydantic}.

Lemma async_call_state name args uid st :
  let promise := {| _request := mkRequest name args uid; _id := uid;
                    _event := fresh (dom (events st)) |} in
  async_call name args uid st =
    Return promise
      (set_requests (insert uid promise)
        (set_events (insert (_event promise) false)
          (add_sent (json (new_request name args uid))
            (add_log (Info "Calling RPC method" (LMessage (new_request name args uid)))
               st)))).
Proof. done. Qed.

Lemma on_request_reply_Return methods request return_annotation body v v' name st st1 :
  methods !! rq_method request = Some (Method return_annotation body) →
  body (rq_arguments request)
       (add_log (Info "Handling RPC request" (LRequest request)) st) = Return v st1 →
  is_NoResponse v = false →
  type_name (get_return_type return_annotation) = Some name →
  validate (get_return_type return_annotation)
           (stringified (get_return_type return_annotation) v) = Some v' →
  on_request methods request st =
    Return tt
      (add_sent (json {| msg_request := None;
                         msg_response := Some
                           {| rs_call_id := Some (rq_call_id request);
                              rs_result := v';
                              rs_result_type := Some name |} |})
         st1).
Proof.
  intros Hattr Hbody Hv Hname Hval.
  unfold on_request, getattr, reply, getattr_name, RpcResponse_new. coro_unfold. simpl.
  rewrite Hattr. simpl. rewrite Hbody, Hv, Hname.
  unfold stringified in Hval. by rewrite Hval.
Qed.

Lemma on_request_reply_invalid methods request return_annotation body v name st st1 :
  methods !! rq_method request = Some (Method return_annotation body) →
  body (rq_arguments request)
       (add_log (Info "Handling RPC request" (LRequest request)) st) = Return v st1 →
  is_NoResponse v = false →
  type_name (get_return_type return_annotation) = Some name →
  validate (get_return_type return_annotation)
           (stringified (get_return_type return_annotation) v) = None →
  on_request methods request st = Raise ValidationError st1.
Proof.
  intros Hattr Hbody Hv Hname Hval.
  unfold on_request, getattr, reply, getattr_name, RpcResponse_new. coro_unfold. simpl.
  rewrite Hattr. simpl. rewrite Hbody, Hv, Hname.
  unfold stringified in Hval. by rewrite Hval.
Qed.

Lemma on_request_reply_nameless methods request return_annotation body v st st1 :
  methods !! rq_method request = Some (Method return_annotation body) →
  body (rq_arguments request)
       (add_log (Info "Handling RPC request" (LRequest request)) st) = Return v st1 →
  is_NoResponse v = false →
  type_name (get_return_type return_annotation) = None →
  on_request methods request st = Raise (AttributeError "__name__") st1.
Proof.
  intros Hattr Hbody Hv Hname.
  unfold on_request, getattr, reply, getattr_name. coro_unfold. simpl.
  rewrite Hattr. simpl. by rewrite Hbody, Hv, Hname.
Qed.

(** [on_message] once the envelope is decoded. *)
Lemma on_message_decoded methods data message st :
  parse_raw data = Some message →
  on_message methods data st =
    try_except_ValidationError
      (match msg_request message with
       | Some request => on_request methods request
       | None => mret tt
       end;;
       match msg_response message with
       | Some response => on_response response
       | None => mret tt
       end)
      (logger_error "Failed to parse message" (LData data)) st.
Proof.
  intros Hparse. unfold on_message, try_except_ValidationError. coro_unfold.
  by rewrite Hparse.
Qed.

Lemma consistent_init : consistent init.
Proof.
  unfold consistent, init. simpl.
  split_and!; intros *; rewrite ?lookup_empty; done.
Qed.

Lemma consistent_async_call name args uid st :
  consistent st → requests st !! uid = None →
  consistent (final (async_call name args uid st)).
Proof.
  intros (Hresp & Hreq & Hunset & Hinj) Hfresh. rewrite async_call_state. simpl.
  pose proof (is_fresh (dom (events st))) as Hl.
  set (l := fresh (dom (events st))) in *.
  assert (Hold : ∀ k p, requests st !! k = Some p → _event p ≠ l).
  { intros k p Hp Heq. destruct (Hreq k p Hp) as [_ Hev].
    apply Hl. rewrite <- Heq. by apply elem_of_dom. }
  split_and!; simpl.
  - intros k r Hk. destruct (Hresp k r Hk) as (Hcid & p & Hp & Hev).
    split; [done|]. exists p.
    assert (k ≠ uid) by congruence.
    rewrite lookup_insert_ne by done. split; [done|].
    rewrite lookup_insert_ne; [done|]. apply not_eq_sym. eauto.
  - intros k p. destruct (decide (uid = k)) as [->|Hne].
    + rewrite lookup_insert_eq. intros [= <-]. simpl.
      split; [done|]. rewrite lookup_insert_eq. eauto.
    + rewrite lookup_insert_ne by done. intros Hp.
      destruct (Hreq k p Hp) as [Hid Hev]. split; [done|].
      apply lookup_insert_is_Some'. by right.
  - intros k p. destruct (decide (uid = k)) as [->|Hne].
    + rewrite lookup_insert_eq. intros [= <-] _. simpl. apply lookup_insert_eq.
    + rewrite lookup_insert_ne by done. intros Hp Hnone.
      rewrite lookup_insert_ne by (apply not_eq_sym; eauto). eauto.
  - intros k1 k2 p1 p2 H1 H2 Heq.
    apply lookup_insert_Some in H1 as [[E1 P1]|[Hn1 H1]];
      apply lookup_insert_Some in H2 as [[E2 P2]|[Hn2 H2]].
    + congruence.
    + exfalso. apply (Hold _ _ H2). rewrite <- Heq, <- P1. done.
    + exfalso. apply (Hold _ _ H1). rewrite Heq, <- P2. done.
    + by eapply Hinj.
Qed.

End helpers.

Lemma consistent_on_response response st :
  consistent st → consistent (final (on_response response st)).
Proof.
  intros (Hresp & Hreq & Hunset & Hinj).
  destruct (on_response_cases response st)
    as [(cid & p & Hcid & Hp & ->)|[_ ->]]; [|done].
  split_and!; simpl.
  - intros k r. destruct (decide (cid = k)) as [->|Hne].
    + rewrite lookup_insert_eq. intros [= <-]. split; [done|].
      exists p. split; [done|]. apply lookup_insert_eq.
    + rewrite lookup_insert_ne by done. intros Hk.
      destruct (Hresp k r Hk) as (Hkey & p0 & Hp0 & Hev). split; [done|].
      exists p0. split; [done|].
      destruct (decide (_event p = _event p0)) as [->|Hne'].
      * apply lookup_insert_eq.
      * by rewrite lookup_insert_ne.
  - intros k p0 Hp0. destruct (Hreq k p0 Hp0) as [Hid Hev]. split; [done|].
    apply lookup_insert_is_Some'. by right.
  - intros k p0 Hp0. destruct (decide (cid = k)) as [->|Hne].
    + by rewrite lookup_insert_eq.
    + rewrite lookup_insert_ne by done. intros Hnone.
      rewrite lookup_insert_ne; [eauto|].
      intros Heq. apply Hne. by eapply Hinj.
  - apply Hinj.
Qed.

Lemma consistent_wait_for_response promise st :
  consistent st → consistent (final (wait_for_response promise st)).
Proof.
  intros (Hresp & Hreq & Hunset & Hinj).
  destruct (wait_for_response_cases promise st) as [(r & _ & ->)|[->| ->]]; try done.
  split_and!; simpl.
  - intros k r0 [Hne Hk]%lookup_delete_Some.
    destruct (Hresp k r0 Hk) as (Hkey & p0 & Hp0 & Hev). split; [done|].
    exists p0. by rewrite lookup_delete_ne.
  - intros k p0 [Hne Hk]%lookup_delete_Some. by apply Hreq.
  - intros k p0 [Hne Hk]%lookup_delete_Some. rewrite lookup_delete_ne by done. eauto.
  - intros k1 k2 p1 p2 [_ H1]%lookup_delete_Some [_ H2]%lookup_delete_Some. eauto.
Qed.

Lemma reachable_consistent `{!Pydantic} st : reachable st → consistent st.
Proof.
  induction 1.
  - apply consistent_init.
  - by apply consistent_async_call.
  - by apply consistent_on_response.
  - by apply consistent_wait_for_response.
Qed.

(** ** Replies *)

(** X1: when the invoked method returns anything but the sentinel, its
    return type (the annotation, or [str] when there is none) has a
    [__name__] and the result passes validation, [on_request] sends exactly
    one envelope after the method has run: a response carrying the call id
    of the request, the validated result and that name. *)
Theorem on_request_sends_one_typed_response `{!Pydantic}
    methods request return_annotation body v v' name st st1 :
  methods !! rq_method request = Some (Method return_annotation body) →
  body (rq_arguments request)
       (add_log (Info "Handling RPC request" (LRequest request)) st) = Return v st1 →
  is_NoResponse v = false →
  type_name (get_return_type return_annotation) = Some name →
  validate (get_return_type return_annotation)
           (stringified (get_return_type return_annotation) v) = Some v' →
  ∃ st2,
    on_request methods request st = Return tt st2 ∧
    socket st2 = socket st1 ++
      [json {| msg_request := None;
               msg_response := Some
                 {| rs_call_id := Some (rq_call_id request);
                    rs_result := v';
                    rs_result_type := Some name |} |}] ∧
    requests st2 = requests st1 ∧
    responses st2 = responses st1 ∧
    log st2 = log st1.
Proof.
  intros Hattr Hbody Hv Hname Hval. eexists. split.
  - by eapply on_request_reply_Return.
  - done.
Qed.

(** X21: when the return annotation has no [__name__] (as with [-> None]),
    a method that returns anything but the sentinel gets no reply at all:
    [on_request] raises [AttributeError] in the state the method left,
    before the response is built or validated, and the exception leaves
    [on_message] uncaught, so that a response carried by the same envelope
    is not dispatched either. *)
Theorem on_request_nameless_return_type_raises `{!Pydantic}
    methods request return_annotation body v st st1 :
  methods !! rq_method request = Some (Method return_annotation body) →
  body (rq_arguments request)
       (add_log (Info "Handling RPC request" (LRequest request)) st) = Return v st1 →
  is_NoResponse v = false →
  type_name (get_return_type return_annotation) = None →
  on_request methods request st = Raise (AttributeError "__name__") st1 ∧
  ∀ data response,
    parse_raw data = Some {| msg_request := Some request; msg_response := response |} →
    on_message methods data st = Raise (AttributeError "__name__") st1.
Proof.
  intros Hattr Hbody Hv Hname.
  pose proof (on_request_reply_nameless _ _ _ _ _ _ _ Hattr Hbody Hv Hname) as Hreq.
  split; [done|]. intros data response Hparse.
  rewrite (on_message_decoded _ _ _ _ Hparse). simpl.
  unfold try_except_ValidationError. coro_unfold. by rewrite Hreq.
Qed.

(** X2: a method without a return annotation that returns anything but
    the sentinel is answered with a string, tagged "str": a string result
    as it is, any other result through [str()]. *)
Theorem on_request_unannotated_replies_with_str `{!Pydantic}
    methods request body v v' st st1 :
  methods !! rq_method request = Some (Method None body) →
  body (rq_arguments request)
       (add_log (Info "Handling RPC request" (LRequest request)) st) = Return v st1 →
  is_NoResponse v = false →
  validate Tstr (PyStr (match v with PyStr s => s | _ => py_str v end)) = Some v' →
  ∃ st2,
    on_request methods request st = Return tt st2 ∧
    socket st2 = socket st1 ++
      [json {| msg_request := None;
               msg_response := Some
                 {| rs_call_id := Some (rq_call_id request);
                    rs_result := v';
                    rs_result_type := Some "str" |} |}].
Proof.
  intros Hattr Hbody Hv Hval. eexists. split.
  - eapply (on_request_reply_Return _ _ None _ _ _ "str"); try done.
    unfold stringified. simpl. destruct v; simpl; done.
  - done.
Qed.

(** ** What leaves [on_message] *)

(** X3: [on_message] never raises [ValidationError], whatever the data,
    the methods object and the state: not from decoding, and not from
    anything the invoked method or the construction of the reply raises. *)
Theorem on_message_never_raises_ValidationError `{!Pydantic} methods data st st' :
  on_message methods data st ≠ Raise ValidationError st'.
Proof.
  unfold on_message, try_except_ValidationError.
  match goal with |- context [match ?b with _ => _ end] => destruct b as [a s|e s|s] end;
    try done.
  destruct e; done.
Qed.

(** X4: a result that fails the validation of its return type, when that
    type has a [__name__] so that the response gets as far as validation, is
    handled like an undecodable message: [on_message] returns normally,
    logs "Failed to parse message" with the inbound data, sends nothing to
    the requester, and a response carried by the same envelope is not
    dispatched. *)
Theorem on_message_invalid_result_logged_as_parse_failure `{!Pydantic}
    methods data request response return_annotation body v name st st1 :
  parse_raw data = Some {| msg_request := Some request; msg_response := response |} →
  methods !! rq_method request = Some (Method return_annotation body) →
  body (rq_arguments request)
       (add_log (Info "Handling RPC request" (LRequest request)) st) = Return v st1 →
  is_NoResponse v = false →
  type_name (get_return_type return_annotation) = Some name →
  validate (get_return_type return_annotation)
           (stringified (get_return_type return_annotation) v) = None →
  ∃ st2,
    on_message methods data st = Return tt st2 ∧
    log st2 = log st1 ++ [Error "Failed to parse message" (LData data)] ∧
    socket st2 = socket st1 ∧
    requests st2 = requests st1 ∧
    responses st2 = responses st1 ∧
    events st2 = events st1.
Proof.
  intros Hparse Hattr Hbody Hv Hname Hval. eexists. split.
  - rewrite (on_message_decoded _ _ _ _ Hparse). simpl.
    unfold try_except_ValidationError. coro_unfold.
    rewrite (on_request_reply_invalid _ _ _ _ _ _ _ _ Hattr Hbody Hv Hname Hval).
    reflexivity.
  - done.
Qed.

(** X5: any exception other than [ValidationError] that [on_request] raises
    leaves [on_message] unchanged, in the state where it was raised, and a
    suspended [on_request] suspends [on_message]; in both cases the
    response of the same envelope is not dispatched. *)
Theorem on_message_propagates_other_exceptions `{!Pydantic}
    methods data request response st :
  parse_raw data = Some {| msg_request := Some request; msg_response := response |} →
  (∀ e st1, on_request methods request st = Raise e st1 → e ≠ ValidationError →
            on_message methods data st = Raise e st1) ∧
  (∀ st1, on_request methods request st = Blocked st1 →
          on_message methods data st = Blocked st1).
Proof.
  intros Hparse. split.
  - intros e st1 Hreq Hne. rewrite (on_message_decoded _ _ _ _ Hparse). simpl.
    unfold try_except_ValidationError. coro_unfold. rewrite Hreq.
    destruct e; done.
  - intros st1 Hreq. rewrite (on_message_decoded _ _ _ _ Hparse). simpl.
    unfold try_except_ValidationError. coro_unfold. by rewrite Hreq.
Qed.

(** X6: an envelope without a request is handled exactly as [on_response]
    handles its response, and an envelope with neither field is accepted
    and ignored: [on_message] returns with the state untouched, without a
    log line. *)
Theorem on_message_without_request `{!Pydantic} methods data st :
  (∀ response,
     parse_raw data = Some {| msg_request := None; msg_response := Some response |} →
     on_message methods data st = on_response response st) ∧
  (parse_raw data = Some {| msg_request := None; msg_response := None |} →
   on_message methods data st = Return tt st).
Proof.
  split.
  - intros response Hparse. rewrite (on_message_decoded _ _ _ _ Hparse). simpl.
    unfold try_except_ValidationError. coro_unfold.
    destruct (on_response_frame response st) as (st' & -> & _). done.
  - intros Hparse. by rewrite (on_message_decoded _ _ _ _ Hparse).
Qed.

(** ** Responses and handles *)

(** X7: a response that arrives after its call has been consumed is
    dropped: right after [wait_for_response] returned, [on_response] for
    the same call id returns normally and files nothing, so the
    delivered-response map does not grow from late duplicates. *)
Theorem late_response_after_consumption_is_dropped promise response late st st' :
  wait_for_response promise st = Return response st' →
  rs_call_id late = Some (call_id promise) →
  ∃ st'',
    on_response late st' = Return tt st'' ∧
    responses st'' = responses st' ∧
    requests st'' = requests st' ∧
    events st'' = events st' ∧
    responses st'' !! call_id promise = None.
Proof.
  intros [_ ->]%wait_for_response_Return Hcid. eexists. split.
  - apply on_response_discard. intros cid. rewrite Hcid. intros [= <-]. simpl.
    apply lookup_delete_eq.
  - simpl. split_and!; try done. apply lookup_delete_eq.
Qed.

(** X8: when two responses with the call id of a pending call arrive
    before the caller resumes, the second replaces the first:
    [wait_for_response] returns the one that arrived last. *)
Theorem duplicate_response_last_wins promise first second st :
  requests st !! call_id promise = Some promise →
  rs_call_id first = Some (call_id promise) →
  rs_call_id second = Some (call_id promise) →
  ∃ st2 st3,
    deliver_all [first; second] st = Return tt st2 ∧
    wait_for_response promise st2 = Return second st3 ∧
    responses st3 !! call_id promise = None.
Proof.
  intros Hreq H1 H2.
  pose proof (on_response_known _ _ _ _ H1 Hreq) as Hr1.
  set (st1 := set_events _ _) in Hr1.
  assert (Hreq1 : requests st1 !! call_id promise = Some promise) by done.
  pose proof (on_response_known _ _ _ _ H2 Hreq1) as Hr2.
  set (st2 := set_events _ _) in Hr2.
  assert (Hready : ready st2 promise second).
  { unfold ready, st2. simpl. rewrite !lookup_insert_eq. eauto. }
  eexists st2, _. split_and!.
  - rewrite (deliver_all_cons _ _ _ _ Hr1). rewrite (deliver_all_cons _ _ _ _ Hr2). done.
  - by apply wait_for_response_ready.
  - simpl. apply lookup_delete_eq.
Qed.

(** X9: issuing a call under a call id that is still pending replaces the
    promise in the table.  The response then resolves the new handle only:
    the first handle's event is never set and awaiting it stays suspended,
    before and after the new handle has consumed the response. *)
Theorem call_id_reuse_orphans_first_handle `{!Pydantic}
    name args uid old response st :
  requests st !! uid = Some old →
  events st !! _event old = Some false →
  rs_call_id response = Some uid →
  ∃ new st1 st2 st3,
    async_call name args uid st = Return new st1 ∧
    requests st1 !! uid = Some new ∧
    _event new ≠ _event old ∧
    on_response response st1 = Return tt st2 ∧
    wait_for_response old st2 = Blocked st2 ∧
    wait_for_response new st2 = Return response st3 ∧
    wait_for_response old st3 = Blocked st3.
Proof.
  intros Hold Hev Hcid.
  pose proof (async_call_state name args uid st) as Hcall. simpl in Hcall.
  pose proof (is_fresh (dom (events st))) as Hl.
  set (l := fresh (dom (events st))) in *.
  set (new := {| _request := mkRequest name args uid; _id := uid; _event := l |}) in *.
  set (st1 := set_requests _ _) in Hcall.
  assert (Hne : l ≠ _event old).
  { intros Heq. apply Hl. rewrite Heq. apply elem_of_dom. eauto. }
  assert (Hreq1 : requests st1 !! uid = Some new) by apply lookup_insert_eq.
  pose proof (on_response_known _ _ _ _ Hcid Hreq1) as Hresp.
  set (st2 := set_events _ _) in Hresp.
  assert (Hev2 : events st2 !! _event old = Some false).
  { unfold st2, st1. simpl. rewrite !lookup_insert_ne by done. done. }
  assert (Hready : ready st2 new response).
  { unfold ready, st2, st1. simpl. rewrite !lookup_insert_eq. eauto. }
  eexists new, st1, st2, _. split_and!; try done.
  - unfold wait_for_response. coro_unfold. simpl. simpl in Hev2. by rewrite Hev2.
  - by apply wait_for_response_ready.
  - unfold wait_for_response. coro_unfold. simpl. simpl in Hev2. by rewrite Hev2.
Qed.

(** X10: a whole call on one channel.  Issued under a call id that is in
    neither table, answered by a response with that id and awaited, the
    call returns that response, puts exactly one envelope on the socket
    (the request with the given method and arguments) and leaves both
    tables as they were before the call. *)
Theorem call_round_trip_restores_tables `{!Pydantic} name args uid response st :
  requests st !! uid = None →
  responses st !! uid = None →
  rs_call_id response = Some uid →
  ∃ promise st1 st2 st3,
    async_call name args uid st = Return promise st1 ∧
    on_response response st1 = Return tt st2 ∧
    wait_for_response promise st2 = Return response st3 ∧
    requests st3 = requests st ∧
    responses st3 = responses st ∧
    socket st3 = socket st ++ [json (new_request name args uid)].
Proof.
  intros Hreq Hresp Hcid.
  pose proof (async_call_state name args uid st) as Hcall. simpl in Hcall.
  set (new := {| _request := mkRequest name args uid; _id := uid;
                 _event := fresh (dom (events st)) |}) in *.
  set (st1 := set_requests _ _) in Hcall.
  assert (Hreq1 : requests st1 !! uid = Some new) by apply lookup_insert_eq.
  pose proof (on_response_known _ _ _ _ Hcid Hreq1) as Hdel.
  set (st2 := set_events _ _) in Hdel.
  assert (Hready : ready st2 new response).
  { unfold ready, st2, st1. simpl. rewrite !lookup_insert_eq. eauto. }
  exists new, st1, st2,
    (set_responses (delete (call_id new)) (set_requests (delete (call_id new)) st2)).
  split_and!; try done.
  - by apply wait_for_response_ready.
  - simpl. by rewrite delete_insert_eq, delete_id.
  - simpl. by rewrite delete_insert_eq, delete_id.
Qed.

(** X11: [async_call], run without interruption, always returns.  It puts
    exactly one envelope on the socket, the request with the given method,
    arguments and call id, and registers under that id a handle for that
    request whose event is new and not set.  No other pending entry, no
    other event and no delivered response is touched. *)
Theorem async_call_sends_one_request_and_registers `{!Pydantic} name args uid st :
  ∃ promise st',
    async_call name args uid st = Return promise st' ∧
    call_id promise = uid ∧
    _request promise = mkRequest name args uid ∧
    socket st' = socket st ++ [json (new_request name args uid)] ∧
    requests st' !! uid = Some promise ∧
    (∀ k, k ≠ uid → requests st' !! k = requests st !! k) ∧
    responses st' = responses st ∧
    events st !! _event promise = None ∧
    events st' !! _event promise = Some false ∧
    (∀ l, l ≠ _event promise → events st' !! l = events st !! l).
Proof.
  eexists _, _. split; [apply async_call_state|]. simpl.
  split_and!; try done.
  - apply lookup_insert_eq.
  - intros k Hk. by apply lookup_insert_ne.
  - apply not_elem_of_dom. apply is_fresh.
  - apply lookup_insert_eq.
  - intros l Hl. by apply lookup_insert_ne.
Qed.

(** X12: incoming responses, however many and whatever they carry, never
    raise, never send anything, never add or remove a pending call and
    never clear an event that is set; a delivered-response entry changes
    only under a call id that is pending and is carried by one of them. *)
Theorem responses_never_touch_pending_or_socket incoming st :
  ∃ st',
    deliver_all incoming st = Return tt st' ∧
    requests st' = requests st ∧
    socket st' = socket st ∧
    (∀ l, events st !! l = Some true → events st' !! l = Some true) ∧
    (∀ k, responses st' !! k ≠ responses st !! k →
          is_Some (requests st !! k) ∧ Some k ∈ rs_call_id <$> incoming).
Proof.
  destruct (deliver_all_frame incoming st) as (st' & Hrun & Hreq & Hsock & Hresp & Hev).
  exists st'. split_and!; try done.
  intros k Hne. split.
  - destruct (requests st !! k) eqn:Hk; [eauto|].
    exfalso. apply Hne, Hresp. by right.
  - destruct (decide (Some k ∈ rs_call_id <$> incoming)) as [|Hnot]; [done|].
    exfalso. apply Hne, Hresp. by left.
Qed.

(** ** Reachable states *)

(** X13: in every state a channel can reach by issuing calls under call
    ids that are not pending, dispatching responses and awaiting handles,
    in any order, a [wait_for_response] that returns hands back a response
    whose call id is the call id of the awaited handle. *)
Theorem reachable_wait_returns_own_response `{!Pydantic} st promise response st' :
  reachable st →
  wait_for_response promise st = Return response st' →
  rs_call_id response = Some (call_id promise).
Proof.
  intros (Hresp & _)%reachable_consistent [(_ & Hr & _) _]%wait_for_response_Return.
  by destruct (Hresp _ _ Hr).
Qed.

(** X14: in every such state the two tables agree: a call id with a
    delivered response is pending, the promise filed under it carries that
    call id, and awaiting that promise returns the delivered response at
    once, without suspending and without an error. *)
Theorem reachable_delivered_is_awaitable `{!Pydantic} st k response :
  reachable st →
  responses st !! k = Some response →
  ∃ promise st',
    requests st !! k = Some promise ∧
    call_id promise = k ∧
    wait_for_response promise st = Return response st' ∧
    requests st' !! k = None ∧
    responses st' !! k = None.
Proof.
  intros (Hresp & Hreq & _)%reachable_consistent Hk.
  destruct (Hresp _ _ Hk) as (_ & p & Hp & Hev).
  destruct (Hreq _ _ Hp) as [Hid _].
  assert (Hready : ready st p response).
  { unfold ready. rewrite Hid. eauto. }
  eexists p, _. split_and!; try done.
  - by apply wait_for_response_ready.
  - simpl. rewrite Hid. apply lookup_delete_eq.
  - simpl. rewrite Hid. apply lookup_delete_eq.
Qed.

(** X19: in every such state there is no spurious wake-up: awaiting the
    handle of a pending call whose response has not been delivered
    suspends, with the state untouched; it neither raises nor returns the
    response of another call. *)
Theorem reachable_pending_without_response_suspends `{!Pydantic} st k promise :
  reachable st →
  requests st !! k = Some promise →
  responses st !! k = None →
  wait_for_response promise st = Blocked st.
Proof.
  intros (_ & _ & Hunset & _)%reachable_consistent Hp Hnone.
  unfold wait_for_response. coro_unfold. simpl.
  by rewrite (Hunset _ _ Hp Hnone).
Qed.

(** X20: [wait_for_response] is all or nothing.  It changes the state only
    when it returns; otherwise it is suspended, or it raises [KeyError] on
    the handle's call id, and in both cases the tables, events, socket and
    log are exactly as before: it never deletes one entry and fails on the
    other. *)
Theorem wait_for_response_all_or_nothing promise st :
  (∃ response st', wait_for_response promise st = Return response st' ∧
                   ready st promise response) ∨
  wait_for_response promise st = Blocked st ∨
  wait_for_response promise st = Raise (KeyError (call_id promise)) st.
Proof.
  destruct (wait_for_response_cases promise st) as [(r & Hr & Hrun)|[Hrun|Hrun]]; eauto.
Qed.

(** ** Two endpoints *)

(** X15: a remote call from end to end.  The client issues the call; the
    bytes it put on its socket are given to the server's [on_message],
    which runs the named method and puts a response on its own socket;
    those bytes are given to the client's [on_message]; the client's
    [wait_for_response] then returns the response carrying the client's
    call id, the validated result of the server's method and the name of
    its return type, and the call id is pending no more.  The return type
    must have a [__name__] for the server to get as far as the response,
    and the codec is only asked to decode the two envelopes it encoded. *)
Theorem remote_call_round_trip `{!Pydantic}
    client_methods server_methods name args uid return_annotation body v v' type_str
    client server server1 :
  let response :=
    {| rs_call_id := Some uid; rs_result := v'; rs_result_type := Some type_str |} in
  parse_raw (json (new_request name args uid)) = Some (new_request name args uid) →
  parse_raw (json {| msg_request := None; msg_response := Some response |})
    = Some {| msg_request := None; msg_response := Some response |} →
  server_methods !! name = Some (Method return_annotation body) →
  body args (add_log (Info "Handling RPC request" (LRequest (mkRequest name args uid)))
               server) = Return v server1 →
  is_NoResponse v = false →
  type_name (get_return_type return_annotation) = Some type_str →
  validate (get_return_type return_annotation)
           (stringified (get_return_type return_annotation) v) = Some v' →
  ∃ promise client1 request_data server2 response_data client2 client3,
    async_call name args uid client = Return promise client1 ∧
    socket client1 = socket client ++ [request_data] ∧
    on_message server_methods request_data server = Return tt server2 ∧
    socket server2 = socket server1 ++ [response_data] ∧
    on_message client_methods response_data client1 = Return tt client2 ∧
    wait_for_response promise client2 = Return response client3 ∧
    requests client3 !! uid = None ∧
    responses client3 !! uid = None.
Proof.
  intros response Hdec_req Hdec_resp Hattr Hbody Hv Hname Hval.
  pose proof (async_call_state name args uid client) as Hcall. simpl in Hcall.
  set (promise := {| _request := mkRequest name args uid; _id := uid;
                     _event := fresh (dom (events client)) |}) in *.
  set (client1 := set_requests _ _) in Hcall.
  assert (Hreq1 : requests client1 !! uid = Some promise) by apply lookup_insert_eq.
  assert (Hcid : rs_call_id response = Some uid) by done.
  pose proof (on_response_known _ _ _ _ Hcid Hreq1) as Hdel.
  set (client2 := set_events _ _) in Hdel.
  assert (Hready : ready client2 promise response).
  { unfold ready, client2, client1. simpl. rewrite !lookup_insert_eq. eauto. }
  exists promise, client1, (json (new_request name args uid)).
  eexists _, (json {| msg_request := None; msg_response := Some response |}).
  exists client2,
    (set_responses (delete (call_id promise))
       (set_requests (delete (call_id promise)) client2)).
  split_and!.
  - exact Hcall.
  - reflexivity.
  - rewrite (on_message_decoded _ _ _ _ Hdec_req). simpl.
    unfold try_except_ValidationError. coro_unfold.
    rewrite (on_request_reply_Return server_methods (mkRequest name args uid)
               _ _ _ _ _ _ _ Hattr Hbody Hv Hname Hval).
    reflexivity.
  - reflexivity.
  - rewrite (on_message_decoded _ _ _ _ Hdec_resp). simpl.
    unfold try_except_ValidationError. coro_unfold. by rewrite Hdel.
  - by apply wait_for_response_ready.
  - simpl. apply lookup_delete_eq.
  - simpl. apply lookup_delete_eq.
Qed.

(** ** The caller facade *)

(** X16: on a new channel, calling [channel.other.<name>] with keyword
    arguments [kwds], for any name that does not start with an underscore,
    is [channel.call(name, kwds)]:
    it puts the request for that method and those arguments on the socket,
    registers the call and suspends until the response is dispatched.  A
    name that starts with an underscore is never turned into a proxy. *)
Theorem other_forwards_public_names `{!Pydantic}
    channel_id kwargs gen_uid name kwds uid st :
  let self := (RpcChannel_new channel_id kwargs gen_uid).1 in
  (startswith_underscore name = false →
   ∃ proxy st',
     RpcCaller_getattribute (other self) name = Forward proxy ∧
     method_name proxy = name ∧
     RpcProxy_call proxy kwds uid st = Blocked st' ∧
     socket st' = socket st ++ [json (new_request name kwds uid)] ∧
     is_Some (requests st' !! uid)) ∧
  (startswith_underscore name = true →
   RpcCaller_getattribute (other self) name = Own name).
Proof.
  intros self. split.
  - intros Hpub. exists (mkProxy name).
    destruct (call_suspends name kwds uid st) as (promise & st' & Hcall & Hblocked).
    exists st'. unfold RpcCaller_getattribute. rewrite Hpub. simpl.
    split_and!; try done.
    + rewrite async_call_state in Hcall. by injection Hcall as _ <-.
    + rewrite async_call_state in Hcall. injection Hcall as _ <-. simpl.
      rewrite lookup_insert_eq. eauto.
  - intros Hpriv. unfold RpcCaller_getattribute. by rewrite Hpriv.
Qed.

(** X17: a caller built from a methods object forwards exactly the names
    of that object's methods that do not start with an underscore; every
    other name is looked up on the caller itself. *)
Theorem restricted_caller_forwards_exactly_public_methods obj name :
  (RpcCaller_getattribute (RpcCaller_new (Some obj)) name = Forward (mkProxy name) ↔
   startswith_underscore name = false ∧
   ∃ return_annotation body, obj !! name = Some (Method return_annotation body)) ∧
  (RpcCaller_getattribute (RpcCaller_new (Some obj)) name = Forward (mkProxy name) ∨
   RpcCaller_getattribute (RpcCaller_new (Some obj)) name = Own name).
Proof.
  assert (Hin : name ∈ (map_to_list (filter (λ kv, ismethod kv.2 = true) obj)).*1 ↔
                ∃ return_annotation body,
                  obj !! name = Some (Method return_annotation body)).
  { rewrite list_elem_of_fmap. split.
    - intros ([k a] & -> & Hka). apply elem_of_map_to_list in Hka.
      apply map_lookup_filter_Some in Hka as [Hk Hc]. simpl in *.
      destruct a; [eauto|done].
    - intros (ann & body & Hk). exists (name, Method ann body). split; [done|].
      apply elem_of_map_to_list. by apply map_lookup_filter_Some. }
  unfold RpcCaller_getattribute, RpcCaller_new. simpl.
  destruct (startswith_underscore name); simpl.
  - split; [|by right]. split; [done|]. by intros [? _].
  - case_bool_decide as Hmem; simpl.
    + split; [|by left]. split; [|done]. intros _. split; [done|]. by apply Hin.
    + split; [|by right]. split; [done|]. intros [_ Hm]. exfalso. by apply Hmem, Hin.
Qed.

(** ** Disconnect *)

(** X18: a new channel has no disconnect handler and [on_disconnect] on it
    returns [None] without touching the channel.  After any number of
    registrations only the handler registered last is kept: [on_disconnect]
    is that handler applied to the channel id, which is the [channel_id]
    given at construction or else the generated one, and registrations
    change neither the id nor the context. *)
Theorem on_disconnect_runs_last_registered channel_id kwargs uid handlers handler :
  let self := (RpcChannel_new channel_id kwargs uid).1 in
  let self' := foldl (λ s h, register_disconnect_handler h s) self (handlers ++ [handler]) in
  (∀ st, on_disconnect self st = Return PyNone st) ∧
  on_disconnect self' = handler (default uid channel_id) ∧
  chan_id self' = default uid channel_id ∧
  context self' = kwargs.
Proof.
  intros self self'. split; [done|].
  assert (Hkeep : ∀ hs s,
            chan_id (foldl (λ s h, register_disconnect_handler h s) s hs) = chan_id s ∧
            context (foldl (λ s h, register_disconnect_handler h s) s hs) = context s).
  { induction hs as [|h hs IH]; intros s; [done|]. simpl.
    destruct (IH (register_disconnect_handler h s)) as [-> ->]. done. }
  unfold self'. rewrite foldl_app. simpl.
  destruct (Hkeep handlers self) as [Hid Hctx].
  unfold on_disconnect. simpl. rewrite Hid.
  split; [done|]. split; [done|]. unfold context in *. simpl. exact Hctx.
Qed.

(** ** The further properties on the small endpoints *)

Section more_demo.
Import Demo.

Lemma one_delivered_reachable : reachable one_delivered.
Proof.
  change one_delivered
    with (final (on_response ping_response (final (async_call "ping" ∅ "c1" init)))).
  apply reach_response. apply reach_call; [apply reach_init|reflexivity].
Qed.

(** [add(a=1, b=2)], annotated [int]: one response, tagged "int". *)
Lemma on_request_sends_one_typed_response_witness :
  ∃ st2,
    on_request methods (mkRequest "add" add_args "a1") init = Return tt st2 ∧
    socket st2 = [json (mkMessage None (Some
                    (mkResponse (Some "a1") (PyInt 3) (Some "int"))))].
Proof.
  assert (Hval : validate (get_return_type (Some Tint))
                   (stringified (get_return_type (Some Tint)) (PyInt 3))
                 = Some (PyInt 3)) by (vm_compute; reflexivity).
  destruct (on_request_sends_one_typed_response methods (mkRequest "add" add_args "a1")
              (Some Tint) add (PyInt 3) (PyInt 3) "int" init _ eq_refl eq_refl eq_refl
              eq_refl Hval)
    as (st2 & Hrun & Hsock & _).
  exists st2. split; [exact Hrun|exact Hsock].
Defined.

(** [version_of] has no annotation and returns the integer 3. *)
Lemma on_request_unannotated_replies_with_str_witness :
  ∃ st2,
    on_request Loopback.methods Loopback.version_of_request init = Return tt st2 ∧
    socket st2 = [json (mkMessage None (Some
                    (mkResponse (Some "v2") (PyStr "3") (Some "str"))))].
Proof.
  assert (Hattr : Loopback.methods !! rq_method Loopback.version_of_request
                  = Some (Method None (λ _, mret (PyInt 3)))) by reflexivity.
  assert (Hval : validate Tstr (PyStr (py_str (PyInt 3))) = Some (PyStr "3"))
    by (vm_compute; reflexivity).
  destruct (on_request_unannotated_replies_with_str Loopback.methods
              Loopback.version_of_request (λ _, mret (PyInt 3)) (PyInt 3)
              (PyStr "3") init _ Hattr eq_refl eq_refl Hval)
    as (st2 & Hrun & Hsock).
  exists st2. split; [exact Hrun|exact Hsock].
Defined.

Lemma on_message_invalid_result_witness :
  @parse_raw Loopback.pydantic "count+ping"
    = Some (mkMessage (Some Loopback.count_request) (Some ping_response)) ∧
  @validate Loopback.pydantic Tint (PyStr "three") = None ∧
  ∃ st2,
    @on_message Loopback.pydantic Loopback.methods "count+ping" one_pending
      = Return tt st2 ∧
    socket st2 = socket one_pending ∧
    responses st2 = responses one_pending.
Proof.
  assert (Hparse : @parse_raw Loopback.pydantic "count+ping"
            = Some (mkMessage (Some Loopback.count_request) (Some ping_response)))
    by reflexivity.
  split; [exact Hparse|]. split; [reflexivity|].
  assert (Hval : @validate Loopback.pydantic (get_return_type (Some Tint))
                   (@stringified Loopback.pydantic (get_return_type (Some Tint))
                      (PyStr "three"))
                 = None) by (vm_compute; reflexivity).
  assert (Hattr : Loopback.methods !! rq_method Loopback.count_request
                  = Some (Method (Some Tint) (λ _, mret (PyStr "three"))))
    by reflexivity.
  destruct (@on_message_invalid_result_logged_as_parse_failure Loopback.pydantic
              Loopback.methods "count+ping" Loopback.count_request (Some ping_response)
              (Some Tint) (λ _, mret (PyStr "three")) (PyStr "three") "int" one_pending _
              Hparse Hattr eq_refl eq_refl eq_refl Hval)
    as (st2 & Hrun & _ & Hsock & _ & Hresp & _).
  exists st2. split; [exact Hrun|]. split; [exact Hsock|exact Hresp].
Defined.

Lemma on_message_propagates_other_exceptions_witness :
  parse_raw "boom+ping" = Some (mkMessage (Some boom_request) (Some ping_response)) ∧
  ∃ st1,
    on_request methods boom_request one_pending = Raise (Exception "boom") st1 ∧
    on_message methods "boom+ping" one_pending = Raise (Exception "boom") st1.
Proof.
  assert (Hparse : parse_raw "boom+ping"
            = Some (mkMessage (Some boom_request) (Some ping_response))) by reflexivity.
  split; [exact Hparse|].
  eexists. split; [reflexivity|].
  apply (proj1 (on_message_propagates_other_exceptions methods "boom+ping"
                  boom_request (Some ping_response) one_pending Hparse)).
  - reflexivity.
  - discriminate.
Defined.

Lemma on_message_without_request_witness :
  @parse_raw Loopback.pydantic "{}" = Some (mkMessage None None) ∧
  @on_message Loopback.pydantic methods "{}" one_pending = Return tt one_pending.
Proof.
  assert (Hparse : @parse_raw Loopback.pydantic "{}" = Some (mkMessage None None))
    by reflexivity.
  split; [exact Hparse|].
  exact (proj2 (@on_message_without_request Loopback.pydantic methods "{}" one_pending)
               Hparse).
Defined.

Lemma late_response_after_consumption_witness :
  ∃ st' st'',
    wait_for_response ping_handle one_delivered = Return ping_response st' ∧
    on_response ping_response st' = Return tt st'' ∧
    responses st'' !! "c1" = None.
Proof.
  eexists.
  destruct (late_response_after_consumption_is_dropped ping_handle ping_response
              ping_response one_delivered _ eq_refl eq_refl)
    as (st'' & Hrun & _ & _ & _ & Hgone).
  exists st''. split; [reflexivity|]. split; [exact Hrun|exact Hgone].
Defined.

Lemma duplicate_response_last_wins_witness :
  requests one_pending !! "c1" = Some ping_handle ∧
  ∃ st2 st3,
    deliver_all [ping_response; mkResponse (Some "c1") (PyStr "again") (Some "str")]
      one_pending = Return tt st2 ∧
    wait_for_response ping_handle st2
      = Return (mkResponse (Some "c1") (PyStr "again") (Some "str")) st3.
Proof.
  assert (Hreq : requests one_pending !! call_id ping_handle = Some ping_handle)
    by reflexivity.
  split; [exact Hreq|].
  destruct (duplicate_response_last_wins ping_handle ping_response
              (mkResponse (Some "c1") (PyStr "again") (Some "str")) one_pending
              Hreq eq_refl eq_refl) as (st2 & st3 & Hdel & Hwait & _).
  exists st2, st3. split; [exact Hdel|exact Hwait].
Defined.

Lemma call_id_reuse_witness :
  requests one_pending !! "c1" = Some ping_handle ∧
  events one_pending !! _event ping_handle = Some false ∧
  ∃ new st1 st2 st3,
    async_call "pong" ∅ "c1" one_pending = Return new st1 ∧
    on_response ping_response st1 = Return tt st2 ∧
    wait_for_response new st2 = Return ping_response st3 ∧
    wait_for_response ping_handle st3 = Blocked st3.
Proof.
  assert (Hold : requests one_pending !! "c1" = Some ping_handle) by reflexivity.
  assert (Hev : events one_pending !! _event ping_handle = Some false) by reflexivity.
  split; [exact Hold|]. split; [exact Hev|].
  destruct (call_id_reuse_orphans_first_handle "pong" ∅ "c1" ping_handle ping_response
              one_pending Hold Hev eq_refl)
    as (new & st1 & st2 & st3 & Hcall & _ & _ & Hresp & _ & Hnew & Hblocked).
  exists new, st1, st2, st3. split_and!; assumption.
Defined.

Lemma call_round_trip_witness :
  ∃ promise st1 st2 st3,
    async_call "ping" ∅ "c1" init = Return promise st1 ∧
    on_response ping_response st1 = Return tt st2 ∧
    wait_for_response promise st2 = Return ping_response st3 ∧
    requests st3 = ∅ ∧ responses st3 = ∅.
Proof.
  destruct (call_round_trip_restores_tables "ping" ∅ "c1" ping_response init
              eq_refl eq_refl eq_refl)
    as (promise & st1 & st2 & st3 & Hcall & Hresp & Hwait & Hreq & Hrs & _).
  exists promise, st1, st2, st3. split_and!; assumption.
Defined.

Lemma reachable_wait_returns_own_response_witness :
  reachable one_delivered ∧
  ∃ st', wait_for_response ping_handle one_delivered = Return ping_response st' ∧
         rs_call_id ping_response = Some (call_id ping_handle).
Proof.
  split; [exact one_delivered_reachable|].
  eexists. split; [reflexivity|].
  exact (reachable_wait_returns_own_response one_delivered ping_handle ping_response _
           one_delivered_reachable eq_refl).
Defined.

Lemma reachable_delivered_is_awaitable_witness :
  reachable one_delivered ∧
  responses one_delivered !! "c1" = Some ping_response ∧
  ∃ promise st',
    requests one_delivered !! "c1" = Some promise ∧
    wait_for_response promise one_delivered = Return ping_response st'.
Proof.
  assert (Hk : responses one_delivered !! "c1" = Some ping_response) by reflexivity.
  split; [exact one_delivered_reachable|]. split; [exact Hk|].
  destruct (reachable_delivered_is_awaitable one_delivered "c1" ping_response
              one_delivered_reachable Hk) as (promise & st' & Hreq & _ & Hwait & _).
  exists promise, st'. split; [exact Hreq|exact Hwait].
Defined.

(** The client calls [add(a=1, b=2)] on a server exposing the methods of
    the small endpoint. *)
Lemma reachable_pending_suspends_witness :
  reachable one_pending ∧
  requests one_pending !! "c1" = Some ping_handle ∧
  responses one_pending !! "c1" = None ∧
  wait_for_response ping_handle one_pending = Blocked one_pending.
Proof.
  assert (Hreach : reachable one_pending).
  { change one_pending with (final (async_call "ping" ∅ "c1" init)).
    apply reach_call; [apply reach_init|reflexivity]. }
  assert (Hp : requests one_pending !! "c1" = Some ping_handle) by reflexivity.
  assert (Hnone : responses one_pending !! "c1" = None) by reflexivity.
  split; [exact Hreach|]. split; [exact Hp|]. split; [exact Hnone|].
  exact (reachable_pending_without_response_suspends one_pending "c1" ping_handle
           Hreach Hp Hnone).
Defined.

Lemma remote_call_round_trip_witness :
  ∃ promise client1 request_data server2 response_data client2 client3,
    @async_call Loopback.pydantic "add" add_args "a1" init = Return promise client1 ∧
    socket client1 = [request_data] ∧
    @on_message Loopback.pydantic methods request_data init = Return tt server2 ∧
    socket server2 = [response_data] ∧
    @on_message Loopback.pydantic ∅ response_data client1 = Return tt client2 ∧
    wait_for_response promise client2 = Return Loopback.add_response client3 ∧
    requests client3 !! "a1" = None ∧
    responses client3 !! "a1" = None.
Proof.
  assert (Hreq : @parse_raw Loopback.pydantic
                   (@json Loopback.pydantic (new_request "add" add_args "a1"))
                 = Some (new_request "add" add_args "a1")) by reflexivity.
  assert (Hresp : @parse_raw Loopback.pydantic
                    (@json Loopback.pydantic (mkMessage None (Some Loopback.add_response)))
                  = Some (mkMessage None (Some Loopback.add_response))) by reflexivity.
  assert (Hval : @validate Loopback.pydantic (get_return_type (Some Tint))
                   (@stringified Loopback.pydantic (get_return_type (Some Tint)) (PyInt 3))
                 = Some (PyInt 3)) by (vm_compute; reflexivity).
  exact (@remote_call_round_trip Loopback.pydantic ∅ methods "add" add_args "a1"
           (Some Tint) add (PyInt 3) (PyInt 3) "int" init init _
           Hreq Hresp eq_refl eq_refl eq_refl eq_refl Hval).
Defined.

Lemma other_forwards_public_names_witness :
  startswith_underscore "add" = false ∧
  startswith_underscore "_channel" = true ∧
  (∃ proxy st',
     RpcCaller_getattribute (other (RpcChannel_new None ∅ "ch").1) "add" = Forward proxy ∧
     RpcProxy_call proxy add_args "a1" init = Blocked st' ∧
     socket st' = [json (new_request "add" add_args "a1")]) ∧
  RpcCaller_getattribute (other (RpcChannel_new None ∅ "ch").1) "_channel"
    = Own "_channel".
Proof.
  split; [reflexivity|]. split; [reflexivity|].
  destruct (other_forwards_public_names None ∅ "ch" "add" add_args "a1" init)
    as [Hpub _].
  destruct (other_forwards_public_names None ∅ "ch" "_channel" add_args "a1" init)
    as [_ Hpriv].
  split; [|exact (Hpriv eq_refl)].
  destruct (Hpub eq_refl) as (proxy & st' & Hget & _ & Hcall & Hsock & _).
  exists proxy, st'. split; [exact Hget|]. split; [exact Hcall|exact Hsock].
Defined.

End more_demo.

(** ** Calls in flight *)

Section in_flight.
Context `{!Pydantic}.
Variable calls : list (string * gmap string pyval * string).
Variable incoming : list RpcResponse.
Hypothesis calls_distinct : NoDup (uids calls).
Hypothesis one_response_each : rs_call_id <$> incoming ≡ₚ Some <$> uids calls.

Lemma uid_index_inj i j name args name' args' uid :
  calls !! i = Some (name, args, uid) → calls !! j = Some (name', args', uid) → i = j.
Proof using calls_distinct.
  intros Hi Hj. eapply NoDup_lookup; [exact calls_distinct| |].
  - unfold uids. rewrite list_lookup_fmap, Hi. done.
  - unfold uids. rewrite list_lookup_fmap, Hj. done.
Qed.

Lemma own_response_exists i name args uid :
  calls !! i = Some (name, args, uid) →
  ∃ r, r ∈ incoming ∧ rs_call_id r = Some uid.
Proof using one_response_each.
  intros Hi.
  assert (Some uid ∈ rs_call_id <$> incoming) as Hin.
  { rewrite one_response_each. apply list_elem_of_fmap. exists uid. split; [done|].
    unfold uids. apply list_elem_of_fmap. exists (name, args, uid). split; [done|].
    by eapply list_elem_of_lookup_2. }
  apply list_elem_of_fmap in Hin as (r & Hr & Hin). eauto.
Qed.

Lemma own_response_unique r r' :
  r ∈ incoming → r' ∈ incoming → rs_call_id r = rs_call_id r' → r = r'.
Proof using calls_distinct one_response_each.
  assert (Hnd : NoDup (rs_call_id <$> incoming)).
  { rewrite one_response_each. by apply (NoDup_fmap_2 _). }
  clear one_response_each. induction incoming as [|x l IH]; intros Hr Hr' Heq.
  - by apply elem_of_nil in Hr.
  - rewrite fmap_cons in Hnd. apply NoDup_cons in Hnd as [Hx Hnd].
    apply elem_of_cons in Hr as [->|Hr]; apply elem_of_cons in Hr' as [->|Hr']; try done.
    + exfalso. apply Hx. rewrite Heq. apply list_elem_of_fmap. eauto.
    + exfalso. apply Hx. rewrite <- Heq. apply list_elem_of_fmap. eauto.
    + by apply IH.
Qed.

Lemma response_owner r :
  r ∈ incoming →
  ∃ i name args uid, calls !! i = Some (name, args, uid) ∧ rs_call_id r = Some uid.
Proof using one_response_each.
  intros Hr.
  assert (rs_call_id r ∈ Some <$> uids calls) as Hin.
  { rewrite <- one_response_each. apply list_elem_of_fmap. eauto. }
  apply list_elem_of_fmap in Hin as (uid & Hid & Hin).
  unfold uids in Hin. apply list_elem_of_fmap in Hin as ([[name args] uid'] & -> & Hin).
  apply list_elem_of_lookup_1 in Hin as [i Hi]. eauto 10.
Qed.

(** A caller is not concerned by changes to other callers' entries. *)
Lemma task_inv_frame cfg cfg' name args uid t :
  task_inv incoming cfg name args uid t →
  undelivered cfg' = undelivered cfg →
  requests (chan cfg') !! uid = requests (chan cfg) !! uid →
  responses (chan cfg') !! uid = responses (chan cfg) !! uid →
  (∀ p, t = CallWaiting p →
        events (chan cfg') !! _event p = events (chan cfg) !! _event p) →
  task_inv incoming cfg' name args uid t.
Proof.
  intros Hinv Hun Hreq Hresp Hev. destruct t as [n a u|m|p|r|e]; simpl in *.
  - by rewrite Hun.
  - by rewrite Hun.
  - rewrite Hun, Hreq, Hresp, (Hev p eq_refl). done.
  - by rewrite Hun.
  - done.
Qed.

Lemma in_flight_inv_start st : in_flight_inv calls incoming (start calls incoming st).
Proof.
  unfold in_flight_inv, start. simpl. split_and!.
  - by rewrite length_fmap.
  - done.
  - intros i name args uid t Hi. rewrite list_lookup_fmap, Hi. simpl.
    intros [= <-]. simpl. done.
  - intros i j p q Hi. rewrite list_lookup_fmap in Hi.
    destruct (calls !! i); simpl in Hi; done.
Qed.

Lemma in_flight_inv_same cfg cfg' :
  in_flight_inv calls incoming cfg →
  tasks cfg' = tasks cfg → chan cfg' = chan cfg → undelivered cfg' = undelivered cfg →
  in_flight_inv calls incoming cfg'.
Proof.
  intros (Hlen & Hsub & Htasks & Hinj) Ht Hc Hu.
  unfold in_flight_inv. rewrite Ht, Hu. split_and!; try done.
  intros i name args uid t Hi Hti.
  eapply task_inv_frame; [by eapply Htasks|done|by rewrite Hc..|].
  intros p _. by rewrite Hc.
Qed.

Lemma task_lookup cfg i name args uid :
  in_flight_inv calls incoming cfg →
  calls !! i = Some (name, args, uid) →
  ∃ t, tasks cfg !! i = Some t ∧ task_inv incoming cfg name args uid t.
Proof.
  intros (Hlen & _ & Htasks & _) Hi.
  destruct (tasks cfg !! i) as [t|] eqn:Ht.
  - eauto.
  - apply lookup_ge_None in Ht. apply lookup_lt_Some in Hi. lia.
Qed.

Lemma call_lookup cfg i t :
  in_flight_inv calls incoming cfg →
  tasks cfg !! i = Some t →
  ∃ name args uid, calls !! i = Some (name, args, uid) ∧
                   task_inv incoming cfg name args uid t.
Proof.
  intros (Hlen & _ & Htasks & _) Ht.
  destruct (calls !! i) as [[[name args] uid]|] eqn:Hi.
  - eauto 10.
  - apply lookup_ge_None in Hi. apply lookup_lt_Some in Ht. lia.
Qed.

Lemma in_flight_inv_turn cfg i t :
  in_flight_inv calls incoming cfg →
  tasks cfg !! i = Some t →
  in_flight_inv calls incoming
    {| tasks := <[i := (call_step t (chan cfg)).1]> (tasks cfg);
       chan := (call_step t (chan cfg)).2;
       undelivered := undelivered cfg |}.
Proof using calls_distinct one_response_each.
  intros Hinv Ht.
  destruct (call_lookup _ _ _ Hinv Ht) as (name & args & uid & Hi & Hti).
  pose proof Hinv as (Hlen & Hsub & Htasks & Hinj).
  assert (Hsame :
            call_step t (chan cfg) = (t, chan cfg) →
            in_flight_inv calls incoming
              {| tasks := <[i := (call_step t (chan cfg)).1]> (tasks cfg);
                 chan := (call_step t (chan cfg)).2;
                 undelivered := undelivered cfg |}).
  { intros ->. eapply in_flight_inv_same; [exact Hinv|..]; simpl; try done.
    by apply list_insert_id. }
  destruct t as [n a u|m|p|r|e]; simpl in Hti.
  - (* the caller starts [async_call] and sends *)
    destruct Hti as [[= -> -> ->] Hund].
    simpl. unfold in_flight_inv. simpl. split_and!.
    + by rewrite length_insert.
    + done.
    + intros j n a u t' Hj Htj.
      destruct (decide (i = j)) as [<-|Hne].
      * rewrite list_lookup_insert_eq in Htj by (by eapply lookup_lt_Some).
        injection Htj as <-. rewrite Hi in Hj. injection Hj as <- <- <-. simpl. done.
      * rewrite list_lookup_insert_ne in Htj by done.
        eapply task_inv_frame; [by eapply Htasks|done..].
    + intros j1 j2 p1 p2 H1 H2 Heq.
      destruct (decide (i = j1)) as [<-|Hne1].
      { rewrite list_lookup_insert_eq in H1 by (by eapply lookup_lt_Some). done. }
      destruct (decide (i = j2)) as [<-|Hne2].
      { rewrite list_lookup_insert_eq in H2 by (by eapply lookup_lt_Some). done. }
      rewrite list_lookup_insert_ne in H1, H2 by done. by eapply Hinj.
  - (* the send is over: the caller registers its promise *)
    destruct Hti as [-> Hund].
    simpl.
    pose proof (is_fresh (dom (events (chan cfg)))) as Hl.
    set (l := fresh (dom (events (chan cfg)))) in *.
    set (new := {| _request := mkRequest name args uid; _id := uid; _event := l |}).
    assert (Hold : ∀ j q, tasks cfg !! j = Some (CallWaiting q) → _event q ≠ l).
    { intros j q Hq Heq.
      destruct (call_lookup _ _ _ Hinv Hq) as (n & a & u & _ & Hqi).
      simpl in Hqi. destruct Hqi as (_ & _ & _ & Hev & _).
      apply Hl. rewrite <- Heq. by apply elem_of_dom. }
    unfold in_flight_inv. simpl. split_and!.
    + by rewrite length_insert.
    + done.
    + intros j n a u t' Hj Htj.
      destruct (decide (i = j)) as [<-|Hne].
      * rewrite list_lookup_insert_eq in Htj by (by eapply lookup_lt_Some).
        injection Htj as <-. rewrite Hi in Hj. injection Hj as <- <- <-. simpl.
        split_and!; try done.
        -- apply lookup_insert_eq.
        -- rewrite lookup_insert_eq. eauto.
        -- intros r Hr Hid. left. split; [by apply Hund|]. apply lookup_insert_eq.
      * rewrite list_lookup_insert_ne in Htj by done.
        assert (u ≠ uid).
        { intros ->. apply Hne. by eapply uid_index_inj. }
        eapply task_inv_frame; [by eapply Htasks|done|..]; simpl.
        -- by rewrite lookup_insert_ne.
        -- done.
        -- intros q ->. rewrite lookup_insert_ne; [done|].
           apply not_eq_sym. by eapply Hold.
    + intros j1 j2 p q Hp Hq Heq.
      destruct (decide (i = j1)) as [<-|Hne1]; destruct (decide (i = j2)) as [<-|Hne2];
        try done.
      * rewrite list_lookup_insert_eq in Hp by (by eapply lookup_lt_Some).
        rewrite list_lookup_insert_ne in Hq by done.
        injection Hp as <-. simpl in Heq. exfalso. eapply Hold; [exact Hq|done].
      * rewrite list_lookup_insert_eq in Hq by (by eapply lookup_lt_Some).
        rewrite list_lookup_insert_ne in Hp by done.
        injection Hq as <-. simpl in Heq. exfalso. eapply Hold; [exact Hp|done].
      * rewrite list_lookup_insert_ne in Hp, Hq by done. by eapply Hinj.
  - (* the caller is resumed in [wait_for_response] *)
    destruct Hti as (Hrq & Hid & Hreq & Hsome & Hown).
    destruct (own_response_exists _ _ _ _ Hi) as (r & Hr & Hrid).
    destruct (Hown r Hr Hrid) as [[Hund Hev]|(Hdel & Hev & Hresp)].
    + apply Hsame. simpl.
      unfold wait_for_response. coro_unfold. simpl. by rewrite Hev.
    + assert (Hready : ready (chan cfg) p r).
      { unfold ready. rewrite Hid. eauto. }
      simpl. rewrite (wait_for_response_ready _ _ _ Hready). simpl. rewrite Hid.
      unfold in_flight_inv. simpl. split_and!.
      * by rewrite length_insert.
      * done.
      * intros j n a u t' Hj Htj.
        destruct (decide (i = j)) as [<-|Hne].
        -- rewrite list_lookup_insert_eq in Htj by (by eapply lookup_lt_Some).
           injection Htj as <-. rewrite Hi in Hj. injection Hj as <- <- <-. simpl. done.
        -- rewrite list_lookup_insert_ne in Htj by done.
           assert (u ≠ uid).
           { intros ->. apply Hne. by eapply uid_index_inj. }
           eapply task_inv_frame; [by eapply Htasks|done|..]; simpl.
           ++ by rewrite lookup_delete_ne.
           ++ by rewrite lookup_delete_ne.
           ++ done.
      * intros j1 j2 p1 p2 H1 H2 Heq.
        destruct (decide (i = j1)) as [<-|Hne1].
        { rewrite list_lookup_insert_eq in H1 by (by eapply lookup_lt_Some). done. }
        destruct (decide (i = j2)) as [<-|Hne2].
        { rewrite list_lookup_insert_eq in H2 by (by eapply lookup_lt_Some). done. }
        rewrite list_lookup_insert_ne in H1, H2 by done. by eapply Hinj.
  - by apply Hsame.
  - by apply Hsame.
Qed.

Lemma in_flight_inv_receive cfg response :
  in_flight_inv calls incoming cfg →
  response ∈ undelivered cfg →
  (∀ t uid, t ∈ tasks cfg → unregistered uid t → rs_call_id response ≠ Some uid) →
  in_flight_inv calls incoming (receive response cfg).
Proof using calls_distinct one_response_each.
  intros Hinv Hund Hissued.
  pose proof Hinv as (Hlen & Hsub & Htasks & Hinj).
  assert (Hin : response ∈ incoming) by auto.
  destruct (response_owner _ Hin) as (i0 & n0 & a0 & u0 & Hi0 & Hid0).
  destruct (task_lookup _ _ _ _ _ Hinv Hi0) as (t0 & Ht0 & Hinv0).
  unfold receive.
  destruct t0 as [n a u|m|p0|r0|e]; simpl in Hinv0.
  - destruct Hinv0 as [[= -> -> ->] _]. exfalso.
    eapply Hissued; [by eapply list_elem_of_lookup_2| |exact Hid0]. done.
  - destruct Hinv0 as [-> _]. exfalso.
    eapply Hissued; [by eapply list_elem_of_lookup_2| |exact Hid0]. done.
  - destruct Hinv0 as (Hrq0 & Hcid0 & Hreq0 & Hsome0 & Hown0).
    rewrite (on_response_known _ _ _ _ Hid0 Hreq0). simpl.
    unfold in_flight_inv. simpl. split_and!; try done.
    + intros r [_ Hr]%list_elem_of_filter. auto.
    + intros j n a u t Hj Htj. pose proof (Htasks _ _ _ _ _ Hj Htj) as Hold.
      destruct t as [n' a' u'|m|q|r|e]; simpl in *.
      * destruct Hold as [[= -> -> ->] Hall]. split; [done|].
        intros r Hr Hrid. apply list_elem_of_filter. split; [|by apply Hall].
        intros ->. eapply Hissued; [by eapply list_elem_of_lookup_2| |exact Hrid]. done.
      * destruct Hold as [-> Hall]. split; [done|].
        intros r Hr Hrid. apply list_elem_of_filter. split; [|by apply Hall].
        intros ->. eapply Hissued; [by eapply list_elem_of_lookup_2| |exact Hrid]. done.
      * destruct Hold as (Hrq & Hcid & Hreq & Hsome & Hown).
        split_and!; try done.
        { apply lookup_insert_is_Some'. by right. }
        intros r Hr Hrid.
        destruct (decide (j = i0)) as [->|Hne].
        -- rewrite Hi0 in Hj. injection Hj as <- <- <-.
           rewrite Ht0 in Htj. injection Htj as <-.
           assert (r = response) as ->.
           { apply own_response_unique; try done. congruence. }
           right. split_and!.
           ++ intros [Hneq _]%list_elem_of_filter. done.
           ++ apply lookup_insert_eq.
           ++ apply lookup_insert_eq.
        -- assert (u ≠ u0).
           { intros ->. apply Hne. by eapply uid_index_inj. }
           assert (r ≠ response) by congruence.
           assert (_event p0 ≠ _event q).
           { intros Heq. apply Hne. symmetry. by eapply (Hinj i0 j). }
           destruct (Hown r Hr Hrid) as [[Hu Hev]|(Hd & Hev & Hresp)].
           ++ left. split; [by apply list_elem_of_filter|].
              by rewrite lookup_insert_ne.
           ++ right. split_and!.
              ** intros [_ ?]%list_elem_of_filter. done.
              ** by rewrite lookup_insert_ne.
              ** by rewrite lookup_insert_ne.
      * destruct Hold as (Hr & Hrid & Hd). split_and!; try done.
        intros [_ ?]%list_elem_of_filter. done.
      * done.
  - destruct Hinv0 as (Hr0 & Hrid0 & Hd0). exfalso. apply Hd0.
    assert (r0 = response) as ->; [|done].
    apply own_response_unique; try done. congruence.
  - done.
Qed.

Lemma in_flight_inv_step cfg cfg' :
  in_flight_inv calls incoming cfg → step cfg cfg' → in_flight_inv calls incoming cfg'.
Proof using calls_distinct one_response_each.
  intros Hinv Hstep. destruct Hstep as [c i Hlt|c r Hr Hissued].
  - destruct (lookup_lt_is_Some_2 _ _ Hlt) as [t Ht].
    unfold turn. rewrite Ht. by apply in_flight_inv_turn.
  - by apply in_flight_inv_receive.
Qed.

Lemma in_flight_inv_reachable st cfg :
  rtc step (start calls incoming st) cfg → in_flight_inv calls incoming cfg.
Proof using calls_distinct one_response_each.
  intros Hsteps.
  assert (∀ c c', rtc step c c' → in_flight_inv calls incoming c →
                  in_flight_inv calls incoming c') as Hpres.
  { induction 1; [done|]. intros Hc. apply IHrtc. by eapply in_flight_inv_step. }
  eapply Hpres; [exact Hsteps|]. apply in_flight_inv_start.
Qed.

End in_flight.

(** The first two turns of a caller are [call] up to its second [await]. *)
Lemma call_step_is_call `{!Pydantic} name args uid st :
  ∃ msg st1 promise st',
    call_step (CallStart name args uid) st = (CallSending msg, st1) ∧
    call_step (CallSending msg) st1 = (CallWaiting promise, st') ∧
    call name args uid st = Blocked st'.
Proof.
  destruct (call_suspends name args uid st) as (promise & st' & Hcall & Hblocked).
  rewrite async_call_state in Hcall. injection Hcall as <- <-.
  eexists _, _, _, _. split; [reflexivity|]. split; [reflexivity|]. exact Hblocked.
Qed.

(** C4: any number of calls with distinct call ids are made through
    [call], each by its own caller, and their responses, one for each, come
    in in any order, each after the promise of its call has been
    registered; callers and dispatcher take their turns in any order
    whatsoever, a caller giving way at each of its awaits.  Then at every
    moment every call stands in one of three ways to the one incoming
    response that carries its call id: the response has not come in and the
    caller has not started or is suspended, and stays suspended if given
    the turn while it waits for the response; or the response has come in
    and the caller's next turn returns exactly that response; or the caller
    has returned exactly that response.  No caller ever raises or returns
    another call's response. *)
Theorem no_crosstalk `{!Pydantic} calls incoming st cfg i name args uid :
  NoDup (uids calls) →
  rs_call_id <$> incoming ≡ₚ Some <$> uids calls →
  rtc step (start calls incoming st) cfg →
  calls !! i = Some (name, args, uid) →
  (∃ msg st1 promise st',
     call_step (CallStart name args uid) st = (CallSending msg, st1) ∧
     call_step (CallSending msg) st1 = (CallWaiting promise, st') ∧
     call name args uid st = Blocked st') ∧
  ∃ response,
    response ∈ incoming ∧
    rs_call_id response = Some uid ∧
    (∀ r, r ∈ incoming → rs_call_id r = Some uid → r = response) ∧
    call_progress cfg i name args uid response.
Proof.
  intros Hnd Hperm Hsteps Hi. split.
  { apply call_step_is_call. }
  pose proof (in_flight_inv_reachable calls incoming Hnd Hperm st cfg Hsteps) as Hinv.
  destruct (own_response_exists calls incoming Hperm _ _ _ _ Hi) as (response & Hr & Hid).
  assert (Huniq : ∀ r, r ∈ incoming → rs_call_id r = Some uid → r = response).
  { intros r Hin Hrid. apply (own_response_unique calls incoming Hnd Hperm); congruence. }
  exists response. split_and!; try done.
  destruct (task_lookup calls incoming _ _ _ _ _ Hinv Hi) as (t & Ht & Hti).
  unfold call_progress. destruct t as [n a u|m|p|r|e]; simpl in Hti.
  - destruct Hti as [[= -> -> ->] Hund]. left. split; [by apply Hund|]. by left.
  - destruct Hti as [-> Hund]. left. split; [by apply Hund|]. right. by left.
  - destruct Hti as (Hrq & Hcid & Hreq & Hsome & Hown).
    destruct (Hown response Hr Hid) as [[Hund Hev]|(Hdel & Hev & Hresp)].
    + left. split; [done|]. right. right. exists p. split_and!; try done.
      simpl. unfold wait_for_response. coro_unfold. simpl. by rewrite Hev.
    + right. left. split; [done|].
      assert (Hready : ready (chan cfg) p response).
      { unfold ready. rewrite Hcid. eauto. }
      eexists p, _. split_and!; try done.
      simpl. by rewrite (wait_for_response_ready _ _ _ Hready).
  - destruct Hti as (Hrin & Hrid & Hdel). right. right.
    assert (r = response) as -> by auto. done.
  - done.
Qed.

(** ** Calls in flight on the small endpoint *)

Section in_flight_demo.
Import Demo.

Ltac all_registered :=
  let Hin := fresh in
  let Hun := fresh in
  intros ? ? Hin Hun; vm_compute in Hin;
  repeat (apply elem_of_cons in Hin as [Hin|Hin]; [subst; contradiction|]);
  by apply elem_of_nil in Hin.

Lemma reverse_order_run_steps :
  rtc step (start two_calls [pong_response; ping_response] init) reverse_order_run.
Proof.
  unfold reverse_order_run.
  eapply rtc_r; [|apply step_turn; vm_compute; lia].
  eapply rtc_r; [|apply step_receive; [vm_compute; repeat constructor|all_registered]].
  eapply rtc_r; [|apply step_turn; vm_compute; lia].
  eapply rtc_r; [|apply step_receive; [vm_compute; repeat constructor|all_registered]].
  eapply rtc_r; [|apply step_turn; vm_compute; lia].
  eapply rtc_r; [|apply step_turn; vm_compute; lia].
  eapply rtc_r; [|apply step_turn; vm_compute; lia].
  eapply rtc_r; [|apply step_turn; vm_compute; lia].
  eapply rtc_r; [|apply step_turn; vm_compute; lia].
  apply rtc_refl.
Qed.

Lemma no_crosstalk_witness :
  NoDup (uids two_calls) ∧
  rs_call_id <$> [pong_response; ping_response] ≡ₚ Some <$> uids two_calls ∧
  rtc step (start two_calls [pong_response; ping_response] init) reverse_order_run ∧
  two_calls !! 0 = Some ("ping", ∅, "c1") ∧
  tasks reverse_order_run = [CallReturned ping_response; CallReturned pong_response] ∧
  ∃ response,
    response ∈ [pong_response; ping_response] ∧
    rs_call_id response = Some "c1" ∧
    (∀ r, r ∈ [pong_response; ping_response] → rs_call_id r = Some "c1" → r = response) ∧
    call_progress reverse_order_run 0 "ping" ∅ "c1" response.
Proof.
  assert (Hnd : NoDup (uids two_calls)).
  { apply (bool_decide_unpack _). vm_compute. exact I. }
  assert (Hperm : rs_call_id <$> [pong_response; ping_response]
                  ≡ₚ Some <$> uids two_calls).
  { apply perm_swap. }
  split; [exact Hnd|]. split; [exact Hperm|].
  split; [exact reverse_order_run_steps|]. split; [reflexivity|].
  split; [vm_compute; reflexivity|].
  exact (proj2 (no_crosstalk two_calls [pong_response; ping_response] init
                  reverse_order_run 0 "ping" ∅ "c1" Hnd Hperm
                  reverse_order_run_steps eq_refl)).
Defined.

(** [touch] is annotated [-> None]. *)
Lemma on_request_nameless_return_type_witness :
  Loopback.methods !! "touch" = Some (Method (Some Tnone) (λ _, mret PyNone)) ∧
  type_name (get_return_type (Some Tnone)) = None ∧
  on_request Loopback.methods Loopback.touch_request init
    = Raise (AttributeError "__name__")
            (add_log (Info "Handling RPC request" (LRequest Loopback.touch_request))
               init).
Proof.
  assert (Hattr : Loopback.methods !! rq_method Loopback.touch_request
                  = Some (Method (Some Tnone) (λ _, mret PyNone))) by reflexivity.
  split; [exact Hattr|]. split; [reflexivity|].
  exact (proj1 (on_request_nameless_return_type_raises Loopback.methods
                  Loopback.touch_request (Some Tnone) (λ _, mret PyNone) PyNone init _
                  Hattr eq_refl eq_refl eq_refl)).
Defined.

End in_flight_demo.
